(** * Strided buffer views of the MLIR interpreter: [BufferView], [Buffer]
      and [TensorOrMemref<T>]

    A shallow embedding of
    [tools/mlir_interpreter/framework/tensor_or_memref.h] and the properties
    its specification states about it.  The header declares some members of
    [BufferView] whose bodies live in the matching [.cc] file; those are
    modelled from the specification and marked as such. *)

From Stdlib Require Import ZArith Lia Strings.Byte.
From stdpp Require Import base decidable option numbers list list_numbers sorting
  strings gmap.

Local Open Scope Z_scope.

(** ** Machine integers *)

(** [int64_t] values are integers reduced to the signed 64-bit range,
    [size_t] values to the unsigned one. *)
Definition wrap64 (z : Z) : Z := (z + 2 ^ 63) `mod` 2 ^ 64 - 2 ^ 63.
Definition to_size_t (z : Z) : Z := z `mod` 2 ^ 64.

Definition value_or (o : option Z) (d : Z) : Z := default d o.

(** ** Outcomes of operations that can trip an [assert] *)

(** The header guards its contracts with [assert(cond && "message")].  A
    tripped assertion aborts the program; reading through an iterator or a
    pointer outside of its storage has no defined behaviour; a loop of the
    model that is given too little fuel reports it. *)
Inductive outcome (A : Type) : Type :=
  | Ok (a : A)
  | AssertionFailed (msg : string)
  | Undefined
  | OutOfFuel.
Arguments Ok {A} a.
Arguments AssertionFailed {A} msg.
Arguments Undefined {A}.
Arguments OutOfFuel {A}.

Definition outcome_bind {A B} (f : A → outcome B) (m : outcome A) : outcome B :=
  match m with
  | Ok a => f a
  | AssertionFailed msg => AssertionFailed msg
  | Undefined => Undefined
  | OutOfFuel => OutOfFuel
  end.

Global Instance outcome_ret : MRet outcome := λ A, @Ok A.
Global Instance outcome_mbind : MBind outcome := λ A B, @outcome_bind A B.

Definition assert (cond : bool) (msg : string) : outcome unit :=
  if cond then Ok () else AssertionFailed msg.

Definition is_assertion {A} (m : outcome A) : bool :=
  match m with AssertionFailed _ => true | _ => false end.

(** ** BufferView *)

Record BufferView : Type := mkBufferView {
  offset : Z;
  sizes : list Z;
  strides : list Z;
  numVectorDims : option Z;
  isVector : bool;
}.

(** [int64_t rank() const { return sizes.size() - numVectorDims.value_or(0); }]
    The subtraction is carried out on [size_t] and returned as [int64_t]. *)
Definition rank (v : BufferView) : Z :=
  wrap64 (Z.of_nat (length (sizes v)) - value_or (numVectorDims v) 0).

(** The dimensions a caller ranges over: all of them, or the first [rank()]
    ones when the trailing vector dimensions are left out. *)
Definition logicalSizes (v : BufferView) (includeVectorDims : bool) : list Z :=
  if includeVectorDims then sizes v else take (Z.to_nat (rank v)) (sizes v).

Definition product (l : list Z) : Z := foldr Z.mul 1 l.

(** Modelled from the spec: the body of [BufferView::getNumElements] is in the
    absent [.cc] file.  "Product of all [sizes] entries (optionally excluding
    the trailing vector dimensions)"; the empty product is 1.  The product is
    the exact one, and the header declares the result [int64_t]: the model
    is the function of the header where the product fits [int64_t], and the
    specification does not say what becomes of a product that does not.
    The statements below that depend on the value returned are made for
    views whose product fits. *)
Definition getNumElements (v : BufferView) (includeVectorDims : bool) : Z :=
  product (logicalSizes v includeVectorDims).

(** Modelled from the spec: the body of [BufferView::inBounds] is in the absent
    [.cc] file.  "True iff every [0 <= indices[i] < sizes[i]]"; an index with
    no size entry to be compared with is not in bounds. *)
Fixpoint inBounds_at (viewIndices szs : list Z) : bool :=
  match viewIndices, szs with
  | [], _ => true
  | i :: viewIndices', s :: szs' =>
      (0 <=? i) && (i <? s) && inBounds_at viewIndices' szs'
  | _ :: _, [] => false
  end.

(** Modelled from the spec: [bool inBounds(ArrayRef<int64_t> viewIndices)
    const], declared in the header, compares the indices with [sizes]. *)
Definition inBounds (v : BufferView) (viewIndices : list Z) : bool :=
  inBounds_at viewIndices (sizes v).

(** Modelled from the spec: the sum of [BufferView::getPhysicalIndex], whose
    body is in the absent [.cc] file: "[Σ logicalIndices[i] * strides[i]]". *)
Fixpoint dot (viewIndices strs : list Z) : Z :=
  match viewIndices, strs with
  | i :: viewIndices', s :: strs' => i * s + dot viewIndices' strs'
  | _, _ => 0
  end.

(** Modelled from the spec: the body of [BufferView::getPhysicalIndex] is in
    the absent [.cc] file.  "Physical offset =
    [offset + Σ logicalIndices[i] * strides[i]]". *)
Definition getPhysicalIndex (v : BufferView) (viewIndices : list Z) : Z :=
  offset v + dot viewIndices (strides v).

(** Modelled from the spec: the body of [BufferView::getDefaultStrides] is in
    the absent [.cc] file.  "Row-major strides — last dimension has stride 1,
    each preceding dimension's stride is the product of the next dimension's
    size and stride." *)
Fixpoint getDefaultStrides (szs : list Z) : list Z :=
  match szs with
  | [] => []
  | _ :: szs' =>
      let rest := getDefaultStrides szs' in
      match szs' with
      | [] => 1 :: rest
      | s :: _ => s * hd 1 rest :: rest
      end
  end.

(** The strides [BufferView::getStridesForLayout] computes for a non-empty
    layout.  Its body is in the absent [.cc] file and the specification only
    asks for "strides consistent with that physical ordering", so the
    computation is left as a parameter of the development. *)
Class LayoutStrides := layoutStrides : list Z → list Z → list Z.

(** Modelled from the spec: the body of [BufferView::getStridesForLayout] is in
    the absent [.cc] file.  "Empty layout = identity/row-major". *)
Definition getStridesForLayout {L : LayoutStrides} (szs layout : list Z) : list Z :=
  match layout with
  | [] => getDefaultStrides szs
  | _ => layoutStrides szs layout
  end.

(** ** BufferView::LogicalIndexView and its iterator *)

Module LogicalIndexView.

(** [Iterator] keeps a pointer to the view, the current index tuple and the
    flag it was created with. *)
Record Iterator : Type := mkIterator {
  view : BufferView;
  viewIndices : list Z;
  includeVectorDims : bool;
}.

(** [operator==] compares the index tuples only. *)
Definition eqb (a b : Iterator) : bool :=
  bool_decide (viewIndices a = viewIndices b).

(** [std::advance(sizeIt, n)] on the reverse iterator of [sizes]: moving past
    either end is undefined. *)
Definition advance (n : Z) (sizeIt : list Z) : outcome (list Z) :=
  if (0 <=? n) && (n <=? Z.of_nat (length sizeIt))
  then Ok (drop (Z.to_nat n) sizeIt)
  else Undefined.

(** The [for] loop of [operator++], walking [viewIndices] and [sizes] from
    their last entries: [Some] is the early [return *this], [None] is the
    loop running off the most significant index. *)
Fixpoint carry (indexIt sizeIt : list Z) : outcome (option (list Z)) :=
  match indexIt with
  | [] => Ok None
  | i :: indexIt' =>
      match sizeIt with
      | [] => Undefined
      | s :: sizeIt' =>
          let i' := wrap64 (i + 1) in
          if i' <? s then Ok (Some (i' :: indexIt'))
          else r ← carry indexIt' sizeIt'; Ok (fmap (M:=option) (cons 0) r)
      end
  end.

(** [sizeIt] as [operator++] sets it up: the reverse iterator of [sizes],
    moved past the vector dimensions unless they are included. *)
Definition sizeIt (v : BufferView) (includeVectorDims : bool)
    : outcome (list Z) :=
  if includeVectorDims then Ok (reverse (sizes v))
  else advance (value_or (numVectorDims v) 0) (reverse (sizes v)).

(** [Iterator& operator++()] *)
Definition next (it : Iterator) : outcome Iterator :=
  sizeIt ← sizeIt (view it) (includeVectorDims it);
  r ← carry (reverse (viewIndices it)) sizeIt;
  Ok (mkIterator (view it)
        (match r with
         | Some idx => reverse idx
         | None => [-1]
         end)
        (includeVectorDims it)).

(** [Iterator end() const { return {view, {-1}, false}; }] *)
Definition end_ (v : BufferView) : Iterator := mkIterator v [-1] false.

(** [Iterator begin() const]: the emptiness test calls
    [getNumElements()] with its default argument. *)
Definition begin (v : BufferView) (includeVectorDims : bool) : Iterator :=
  if getNumElements v false =? 0 then end_ v
  else mkIterator v
         (replicate
            (Z.to_nat (to_size_t
               (wrap64 (rank v + (if includeVectorDims
                                  then value_or (numVectorDims v) 0
                                  else 0)))))
            0)
         includeVectorDims.

(** A range-[for] over [view.indices(includeVectorDims)]: the tuples the
    loop body sees, and the iterator the loop stops at. *)
Fixpoint run (fuel : nat) (v : BufferView) (it : Iterator)
    : outcome (list (list Z) * Iterator) :=
  if eqb it (end_ v) then Ok ([], it)
  else match fuel with
       | O => OutOfFuel
       | S fuel' =>
           it' ← next it;
           '(tuples, last) ← run fuel' v it';
           Ok (viewIndices it :: tuples, last)
       end.

End LogicalIndexView.

(** [LogicalIndexView indices(bool includeVectorDims = false) const] *)
Definition indices (fuel : nat) (v : BufferView) (includeVectorDims : bool)
    : outcome (list (list Z) * LogicalIndexView.Iterator) :=
  LogicalIndexView.run fuel v (LogicalIndexView.begin v includeVectorDims).

(** Two views used as examples: a 2x3 matrix, and a tensor of two vectors
    with no lanes. *)
Definition matrix_2x3 : BufferView := mkBufferView 0 [2; 3] [3; 1] None false.
Definition zero_lane_view : BufferView :=
  mkBufferView 0 [2; 0] [0; 1] (Some 1) false.

(** Views that nothing rules out: one with a negative size, one with a
    negative number of vector dimensions. *)
Definition negative_size_view : BufferView := mkBufferView 0 [-1] [1] None false.
Definition negative_lanes_view : BufferView :=
  mkBufferView 0 [2; 3] [3; 1] (Some (-1)) false.

(** ** What the specification says about [indices] *)

(** A view the iterator is written for: sizes are non-negative [int64_t]
    values and the vector dimensions are among the dimensions. *)
Record well_formed (v : BufferView) : Prop := {
  wf_sizes : Forall (λ s, 0 ≤ s < 2 ^ 63) (sizes v);
  wf_length : Z.of_nat (length (sizes v)) < 2 ^ 63;
  wf_vector_dims :
    0 ≤ value_or (numVectorDims v) 0 ≤ Z.of_nat (length (sizes v));
}.

(** Row-major order on index tuples: the first coordinate in which two
    tuples differ decides, so the last coordinate varies fastest. *)
Inductive row_major_lt : list Z → list Z → Prop :=
  | row_major_lt_head i j t u : i < j → row_major_lt (i :: t) (j :: u)
  | row_major_lt_tail i t u : row_major_lt t u → row_major_lt (i :: t) (i :: u).

(** The sequence [v.indices(includeVectorDims)] is finite, ends in the
    sentinel, and lists exactly the in-bounds tuples over the enumerated
    dimensions, once each, in row-major order; there are
    [getNumElements(includeVectorDims)] of them. *)
Definition indices_enumerate (v : BufferView) (includeVectorDims : bool) : Prop :=
  ∃ tuples last,
    (∀ fuel, (length tuples ≤ fuel)%nat →
       indices fuel v includeVectorDims = Ok (tuples, last)) ∧
    LogicalIndexView.eqb last (LogicalIndexView.end_ v) = true ∧
    LogicalIndexView.viewIndices last = [-1] ∧
    (∀ t, t ∈ tuples ↔
          length t = length (logicalSizes v includeVectorDims) ∧
          inBounds v t = true) ∧
    NoDup tuples ∧
    StronglySorted row_major_lt tuples ∧
    Z.of_nat (length tuples) = getNumElements v includeVectorDims.

(** *** The enumeration the proofs compare the iterator with *)

(** [digit i s]: [i] is a valid coordinate of a dimension of size [s]. *)
Definition digit (i s : Z) : Prop := 0 ≤ i < s.

(** All tuples over the sizes [rds], least significant coordinate first, in
    counting order. *)
Fixpoint odometer (rds : list Z) : list (list Z) :=
  match rds with
  | [] => [[]]
  | s :: rds' => t ← odometer rds'; (λ i, i :: t) <$> seqZ 0 s
  end.

Definition rowMajor (ds : list Z) : list (list Z) :=
  reverse <$> odometer (reverse ds).

Definition first_or {A} (stop : option A) (l : list A) : option A :=
  match l with [] => stop | b :: _ => Some b end.

(** [linked rds l stop]: [carry] leads from each tuple of [l] to the next
    one, and from the last one to [stop]. *)
Fixpoint linked (rds : list Z) (l : list (list Z)) (stop : option (list Z))
    : Prop :=
  match l with
  | [] => True
  | a :: l' =>
      LogicalIndexView.carry a rds = Ok (first_or stop l') ∧ linked rds l' stop
  end.

(** ** Buffer *)

(** [llvm::SmallVector<char> storage; bool isDeallocated = false;] *)
Record Buffer : Type := mkBuffer {
  storage : list byte;
  isDeallocated : bool;
}.

(** [Buffer(Dummy, size_t numElements, size_t elementSize)
       : storage(numElements * elementSize) {}]: the product is taken on
    [size_t] and the bytes start out as zero. *)
Definition Buffer_new (numElements elementSize : Z) : Buffer :=
  mkBuffer (replicate (Z.to_nat (to_size_t (numElements * elementSize))) x00)
           false.

(** [Buffer::allocate<T>(size_t size)], with [elementSize] for [sizeof(T)]. *)
Definition allocate (elementSize size : Z) : Buffer :=
  Buffer_new (to_size_t size) elementSize.

(** [int64_t getByteSize() const { return storage.size(); }] *)
Definition getByteSize (b : Buffer) : Z := wrap64 (Z.of_nat (length (storage b))).

(** [void deallocate() { isDeallocated = true; }] *)
Definition deallocate (b : Buffer) : Buffer := mkBuffer (storage b) true.

(** [bool deallocated() const { return isDeallocated; }] *)
Definition deallocated (b : Buffer) : bool := isDeallocated b.

(** [char* at(int64_t idx, int64_t elementSize)] and its [const] twin.  The
    pointer [&storage.data()[idx * elementSize]] is modelled by its byte
    offset into [storage]. *)
Definition Buffer_at (b : Buffer) (idx elementSize : Z) : outcome Z :=
  _ ← assert (negb (isDeallocated b)) "accessing deallocated buffer";
  Ok (idx * elementSize).

(** Reading and writing [n] bytes through such a pointer; outside of
    [storage] the behaviour is undefined. *)
Definition load (b : Buffer) (ptr n : Z) : outcome (list byte) :=
  if (0 <=? ptr) && (ptr + n <=? Z.of_nat (length (storage b)))
  then Ok (take (Z.to_nat n) (drop (Z.to_nat ptr) (storage b)))
  else Undefined.

Definition store (b : Buffer) (ptr : Z) (bytes : list byte) : outcome Buffer :=
  if (0 <=? ptr)
     && (ptr + Z.of_nat (length bytes) <=? Z.of_nat (length (storage b)))
  then Ok (mkBuffer (take (Z.to_nat ptr) (storage b) ++ bytes
                     ++ drop (Z.to_nat ptr + length bytes) (storage b))
                    (isDeallocated b))
  else Undefined.

(** What a holder of a [Buffer] can do with it. *)
Inductive BufferOp : Type :=
  | OpPeek (idx elementSize n : Z)
  | OpPoke (idx elementSize : Z) (bytes : list byte)
  | OpGetByteSize
  | OpDeallocate
  | OpDeallocated.

Definition exec (b : Buffer) (op : BufferOp) : outcome Buffer :=
  match op with
  | OpPeek idx elementSize n =>
      ptr ← Buffer_at b idx elementSize; _ ← load b ptr n; Ok b
  | OpPoke idx elementSize bytes =>
      ptr ← Buffer_at b idx elementSize; store b ptr bytes
  | OpGetByteSize => Ok b
  | OpDeallocate => Ok (deallocate b)
  | OpDeallocated => Ok b
  end.

Fixpoint exec_all (b : Buffer) (ops : list BufferOp) : outcome Buffer :=
  match ops with
  | [] => Ok b
  | op :: ops' => b' ← exec b op; exec_all b' ops'
  end.

(** ** Element types *)

(** What [TensorOrMemref<T>] uses of its element type: [sizeof(T)], the
    object representation that [reinterpret_cast<T*>] reads and writes,
    [std::is_floating_point_v<T>], [std::isnan] and [operator!=].  A
    floating-point type has [x != y] whenever one of the two is a NaN. *)
Class ElementType (T : Type) : Type := {
  sizeofT : Z;
  encode : T → list byte;
  decode : list byte → T;
  is_floating_point : bool;
  isnan : T → bool;
  ne : T → T → bool;
  sizeofT_pos : 0 < sizeofT;
  length_encode x : Z.of_nat (length (encode x)) = sizeofT;
  decode_encode x : decode (encode x) = x;
  ne_nan x y :
    is_floating_point = true → isnan x || isnan y = true → ne x y = true;
}.

(** [int8_t]: one byte, compared by value. *)
Record int8_t : Type := mkInt8 { int8_byte : byte }.

Program Instance int8_element : ElementType int8_t := {|
  sizeofT := 1;
  encode x := [int8_byte x];
  decode bytes := mkInt8 (hd x00 bytes);
  is_floating_point := false;
  isnan _ := false;
  ne x y := negb (Byte.eqb (int8_byte x) (int8_byte y));
|}.
Next Obligation. done. Qed.
Next Obligation. done. Qed.
Next Obligation. by intros []. Qed.
Next Obligation. done. Qed.

(** [float]: the four bytes of an IEEE 754 binary32 value, least significant
    first. *)
Record float : Type := mkFloat { f0 : byte; f1 : byte; f2 : byte; f3 : byte }.

Definition float_bits (x : float) : Z :=
  Z.of_N (Byte.to_N (f0 x)) + 2 ^ 8 * Z.of_N (Byte.to_N (f1 x))
  + 2 ^ 16 * Z.of_N (Byte.to_N (f2 x)) + 2 ^ 24 * Z.of_N (Byte.to_N (f3 x)).

(** All exponent bits set and a non-zero fraction. *)
Definition float_isnan (x : float) : bool :=
  (Z.land (Z.shiftr (float_bits x) 23) 255 =? 255)
  && negb (Z.land (float_bits x) (2 ^ 23 - 1) =? 0).

Definition float_is_zero (x : float) : bool :=
  Z.land (float_bits x) (2 ^ 31 - 1) =? 0.

(** IEEE comparison: NaN differs from everything, the two zeros are equal,
    other values are equal when their bits are. *)
Definition float_ne (x y : float) : bool :=
  float_isnan x || float_isnan y
  || negb ((float_is_zero x && float_is_zero y)
           || (float_bits x =? float_bits y)).

Program Instance float_element : ElementType float := {|
  sizeofT := 4;
  encode x := [f0 x; f1 x; f2 x; f3 x];
  decode bytes :=
    mkFloat (nth 0 bytes x00) (nth 1 bytes x00) (nth 2 bytes x00)
            (nth 3 bytes x00);
  is_floating_point := true;
  isnan := float_isnan;
  ne := float_ne;
|}.
Next Obligation. done. Qed.
Next Obligation. done. Qed.
Next Obligation. by intros []. Qed.
Next Obligation.
  intros x y _ Hnan. unfold float_ne. by rewrite Hnan.
Qed.

Definition float_nan : float := mkFloat x00 x00 xc0 x7f.
Definition float_one : float := mkFloat x00 x00 x80 x3f.

(** [std::complex<float>]: real part, then imaginary part; not a
    floating-point type for [std::is_floating_point_v], and unequal as soon
    as one of the parts is. *)
Record complex : Type := mkComplex { re : float; im : float }.

Program Instance complex_element : ElementType complex := {|
  sizeofT := 8;
  encode z := encode (re z) ++ encode (im z);
  decode bytes := mkComplex (decode (take 4 bytes)) (decode (drop 4 bytes));
  is_floating_point := false;
  isnan _ := false;
  ne z w := float_ne (re z) (re w) || float_ne (im z) (im w);
|}.
Next Obligation. done. Qed.
Next Obligation. done. Qed.
Next Obligation. by intros [[] []]. Qed.
Next Obligation. done. Qed.

(** ** Range-based [for] loops over index sequences *)

(** How a loop body leaves: on to the next iteration, or out of the
    enclosing function with a result. *)
Inductive flow (S R : Type) : Type :=
  | Continue (s : S)
  | Return (r : R).
Arguments Continue {S R} s.
Arguments Return {S R} r.

(** [for (const auto& indices : view.indices(..)) body] *)
Fixpoint range_for {S R} (fuel : nat) (v : BufferView)
    (it : LogicalIndexView.Iterator)
    (body : list Z → S → outcome (flow S R)) (s : S) : outcome (flow S R) :=
  if LogicalIndexView.eqb it (LogicalIndexView.end_ v) then Ok (Continue s)
  else match fuel with
       | O => OutOfFuel
       | Datatypes.S fuel' =>
           fl ← body (LogicalIndexView.viewIndices it) s;
           match fl with
           | Return r => Ok (Return r)
           | Continue s' =>
               it' ← LogicalIndexView.next it;
               range_for fuel' v it' body s'
           end
       end.

(** [for (auto [a, b] : llvm::zip(v1.indices(..), v2.indices(..))) body]:
    the loop ends as soon as one of the two iterators is at its end. *)
Fixpoint zip_for {S} (fuel : nat)
    (v1 : BufferView) (it1 : LogicalIndexView.Iterator)
    (v2 : BufferView) (it2 : LogicalIndexView.Iterator)
    (body : list Z → list Z → S → outcome S) (s : S) : outcome S :=
  if LogicalIndexView.eqb it1 (LogicalIndexView.end_ v1)
     || LogicalIndexView.eqb it2 (LogicalIndexView.end_ v2)
  then Ok s
  else match fuel with
       | O => OutOfFuel
       | Datatypes.S fuel' =>
           s' ← body (LogicalIndexView.viewIndices it1)
                     (LogicalIndexView.viewIndices it2) s;
           it1' ← LogicalIndexView.next it1;
           it2' ← LogicalIndexView.next it2;
           zip_for fuel' v1 it1' v2 it2' body s'
       end.

(** ** TensorOrMemref *)

(** A [std::shared_ptr<Buffer>] is the address of a buffer in the heap;
    values that hold the same address share the buffer. *)
Definition loc : Type := positive.
Abbreviation heap := (gmap loc Buffer).

Definition deref (h : heap) (l : loc) : outcome Buffer :=
  match h !! l with
  | Some b => Ok b
  | None => Undefined
  end.

(** [std::shared_ptr<Buffer> buffer; BufferView view;] *)
Record TensorOrMemref (T : Type) : Type := mkTensorOrMemref {
  buffer : loc;
  view : BufferView;
}.
Arguments mkTensorOrMemref {T} buffer view.
Arguments buffer {T} t.
Arguments view {T} t.

(** [{begin + rank, end}] of a vector: a range that starts outside of the
    vector is undefined. *)
Definition from_rank (r : Z) (l : list Z) : outcome (list Z) :=
  if (0 <=? r) && (r <=? Z.of_nat (length l)) then Ok (drop (Z.to_nat r) l)
  else Undefined.

Section TensorOrMemref.
Context {T : Type} {E : ElementType T} {L : LayoutStrides}.

(** [static TensorOrMemref<T> emptyLike(const BufferView& view,
                                        ArrayRef<int64_t> layout = {})] *)
Definition emptyLike (h : heap) (v : BufferView) (layout : list Z)
    : heap * TensorOrMemref T :=
  let newView :=
    mkBufferView 0 (sizes v) (getStridesForLayout (sizes v) layout)
                 (numVectorDims v) (isVector v) in
  let l := fresh (dom h) in
  (<[l := allocate sizeofT (getNumElements v true)]> h,
   mkTensorOrMemref l newView).

(** [static TensorOrMemref<T> empty(ArrayRef<int64_t> sizes,
                                    ArrayRef<int64_t> layout = {})] *)
Definition empty (h : heap) (szs layout : list Z) : heap * TensorOrMemref T :=
  let dummy := mkBufferView 0 szs [] None false in
  emptyLike h dummy layout.

(** [T& at(ArrayRef<int64_t> indices)] and its [const] twin: the reference
    is the byte offset of the element in the buffer. *)
Definition at_ (h : heap) (t : TensorOrMemref T) (idx : list Z) : outcome Z :=
  _ ← assert (inBounds (view t) idx) "out of bounds";
  b ← deref h (buffer t);
  Buffer_at b (getPhysicalIndex (view t) idx) sizeofT.

(** Reading and assigning through the reference [at] returned. *)
Definition read (h : heap) (t : TensorOrMemref T) (ptr : Z) : outcome T :=
  b ← deref h (buffer t);
  bytes ← load b ptr sizeofT;
  Ok (decode bytes).

Definition write (h : heap) (t : TensorOrMemref T) (ptr : Z) (x : T)
    : outcome heap :=
  b ← deref h (buffer t);
  b' ← store b ptr (encode x);
  Ok (<[buffer t := b']> h).

(** [out.at(dst_index) = at(src_index);] *)
Definition assign (t out : TensorOrMemref T) (src_index dst_index : list Z)
    (h : heap) : outcome heap :=
  src ← at_ h t src_index;
  dst ← at_ h out dst_index;
  x ← read h t src;
  write h out dst x.

(** [TensorOrMemref<T> clone(ArrayRef<int64_t> layout = {}) const] *)
Definition clone (fuel : nat) (h : heap) (t : TensorOrMemref T)
    (layout : list Z) : outcome (heap * TensorOrMemref T) :=
  let '(h0, out) := emptyLike h (view t) layout in
  h' ← zip_for fuel
         (view t) (LogicalIndexView.begin (view t) true)
         (view out) (LogicalIndexView.begin (view out) true)
         (assign t out)
         h0;
  Ok (h', out).

(** [TensorOrMemref vectorAt(ArrayRef<int64_t> indices) const] *)
Definition vectorAt (t : TensorOrMemref T) (idx : list Z)
    : outcome (TensorOrMemref T) :=
  _ ← assert (inBounds (view t) idx) "out of bounds";
  subview_strides ← from_rank (rank (view t)) (strides (view t));
  subview_sizes ← from_rank (rank (view t)) (sizes (view t));
  Ok (mkTensorOrMemref (buffer t)
        (mkBufferView (getPhysicalIndex (view t) idx)
                      subview_sizes subview_strides None true)).

(** The element a reference obtained from [at] refers to. *)
Definition element (h : heap) (t : TensorOrMemref T) (idx : list Z)
    : outcome T :=
  ptr ← at_ h t idx; read h t ptr.

(** The body of the loop of [operator==]: NaNs are paired off first when
    [T] is a floating-point type, then [!=] decides. *)
Definition differ (h : heap) (this other : TensorOrMemref T) (idx : list Z)
    : outcome bool :=
  nans ← (if is_floating_point then
            x ← element h this idx;
            y ← element h other idx;
            let thisnan := isnan x in
            let othernan := isnan y in
            if thisnan || othernan
            then Ok (Some (negb (thisnan && othernan)))
            else Ok None
          else Ok None);
  match nans with
  | Some d => Ok d
  | None =>
      x ← element h this idx;
      y ← element h other idx;
      Ok (ne x y)
  end.

(** [bool operator==(const TensorOrMemref& other) const] *)
Definition equal (fuel : nat) (h : heap) (this other : TensorOrMemref T)
    : outcome bool :=
  b ← deref h (buffer this);
  dead ← (if deallocated b then Ok true
          else b' ← deref h (buffer other); Ok (deallocated b'));
  if dead : bool then Ok false
  else if bool_decide (sizes (view other) ≠ sizes (view this)) then Ok false
  else if bool_decide (numVectorDims (view other) ≠ numVectorDims (view this))
  then Ok false
  else
    fl ← range_for fuel (view this) (LogicalIndexView.begin (view this) true)
           (λ idx (_ : unit),
              d ← differ h this other idx;
              Ok (if d : bool then Return false else Continue ()))
           ();
    Ok (match fl with Return r => r | Continue _ => true end).

End TensorOrMemref.

(** ** Views and the storage behind them *)

(** [addresses szs strs n]: over the sizes [szs], the strides [strs] send
    distinct in-bounds tuples to distinct cells among the first [n]. *)
Definition addresses (szs strs : list Z) (n : Z) : Prop :=
  (∀ idx, Forall2 digit idx szs → 0 ≤ dot idx strs < n) ∧
  (∀ idx idx', Forall2 digit idx szs → Forall2 digit idx' szs →
     dot idx strs = dot idx' strs → idx = idx').

(** [fits b v elementSize]: every element of the view lies in the storage
    of [b]. *)
Definition fits (b : Buffer) (v : BufferView) (elementSize : Z) : Prop :=
  ∀ idx, Forall2 digit idx (sizes v) →
    0 ≤ getPhysicalIndex v idx ∧
    (getPhysicalIndex v idx + 1) * elementSize ≤ Z.of_nat (length (storage b)).

(** *** Loops over an index sequence, unrolled *)

Fixpoint fold_flow {S R} (body : list Z → S → outcome (flow S R))
    (tuples : list (list Z)) (s : S) : outcome (flow S R) :=
  match tuples with
  | [] => Ok (Continue s)
  | t :: tuples' =>
      fl ← body t s;
      match fl with
      | Return r => Ok (Return r)
      | Continue s' => fold_flow body tuples' s'
      end
  end.

Fixpoint fold_body {S} (body : list Z → S → outcome S)
    (tuples : list (list Z)) (s : S) : outcome S :=
  match tuples with
  | [] => Ok s
  | t :: tuples' => s' ← body t s; fold_body body tuples' s'
  end.

(** Two views of the same shape yield the same index sequence. *)
Definition same_shape (v1 v2 : BufferView) : Prop :=
  sizes v1 = sizes v2 ∧ numVectorDims v1 = numVectorDims v2.

(** *** What the specification says about values *)

Section Values.
Context {T : Type} {E : ElementType T}.

(** The element of the view [v] of the buffer [b] at [idx], as its bytes
    decode. *)
Definition peek (b : Buffer) (v : BufferView) (idx : list Z) : T :=
  decode (take (Z.to_nat sizeofT)
               (drop (Z.to_nat (getPhysicalIndex v idx * sizeofT))
                     (storage b))).

(** "Compares equal, floating-point NaN treated as equal to NaN". *)
Definition compares_equal (x y : T) : bool :=
  negb (ne x y) || (is_floating_point && isnan x && isnan y).

(** A value whose buffer is in the heap and holds every element of its
    well-formed view. *)
Record valid (h : heap) (t : TensorOrMemref T) (b : Buffer) : Prop := {
  valid_buffer : h !! buffer t = Some b;
  valid_view : well_formed (view t);
  valid_fits : fits b (view t) sizeofT;
}.

(** "Two instances are value-equal iff neither buffer is deallocated,
    their views have identical sizes and vector-dimension counts, and every
    corresponding logical element compares equal". *)
Definition equality_is_structural (h : heap) (a b : TensorOrMemref T) : Prop :=
  ∀ ba bb, h !! buffer a = Some ba → h !! buffer b = Some bb →
  ∃ r : bool,
    (∃ n, ∀ fuel, (n ≤ fuel)%nat → equal fuel h a b = Ok r) ∧
    (r = true ↔
       isDeallocated ba = false ∧ isDeallocated bb = false ∧
       sizes (view b) = sizes (view a) ∧
       numVectorDims (view b) = numVectorDims (view a) ∧
       ∀ idx, length idx = length (sizes (view a)) →
              inBounds (view a) idx = true →
              compares_equal (peek ba (view a) idx) (peek bb (view b) idx)
              = true).

(** "[clone()] followed by equality comparison against the original
    returns true". *)
Definition clone_equals_original {L : LayoutStrides}
    (h : heap) (t : TensorOrMemref T) (layout : list Z) : Prop :=
  ∃ n, ∀ fuel, (n ≤ fuel)%nat →
    ∃ h' out, clone fuel h t layout = Ok (h', out) ∧
              equal fuel h' out t = Ok true.

(** "Allocate a new Buffer sized to hold [view.getNumElements(true)]
    elements of T, with strides computed from [layout], offset reset to
    0": the byte size of the new buffer is the product of all sizes times
    [sizeof(T)]. *)
Definition emptyLike_holds_all_elements {L : LayoutStrides}
    (h : heap) (v : BufferView) (layout : list Z) : Prop :=
  ∃ (out : TensorOrMemref T) b,
    emptyLike h v layout = (<[buffer out := b]> h, out) ∧
    h !! buffer out = None ∧
    isDeallocated b = false ∧
    getByteSize b = product (sizes v) * sizeofT ∧
    offset (view out) = 0 ∧
    strides (view out) = getStridesForLayout (sizes v) layout.

End Values.

(** *** Example values *)

(** A stand-in for the absent layout computation, for closed examples: it
    lays every layout out in row-major order. *)
Definition row_major_layout : LayoutStrides := λ szs _, getDefaultStrides szs.

Definition scalar_view : BufferView := mkBufferView 0 [1] [1] None false.

(** Three one-element [float] buffers: NaN, NaN and 1.0. *)
Definition float_heap : heap :=
  {[ 1%positive := mkBuffer (encode float_nan) false;
     2%positive := mkBuffer (encode float_nan) false;
     3%positive := mkBuffer (encode float_one) false ]}.
Definition float_at (l : loc) : TensorOrMemref float :=
  mkTensorOrMemref l scalar_view.

(** A one-element [std::complex<float>] tensor holding (NaN, 1.0). *)
Definition complex_heap : heap :=
  {[ 1%positive := mkBuffer (encode (mkComplex float_nan float_one)) false ]}.
Definition complex_nan : TensorOrMemref complex :=
  mkTensorOrMemref 1%positive scalar_view.

(** A 2x3 [int8_t] matrix over the bytes 1..6. *)
Definition matrix_buffer : Buffer :=
  mkBuffer [x01; x02; x03; x04; x05; x06] false.
Definition matrix_heap : heap := {[ 1%positive := matrix_buffer ]}.
Definition matrix : TensorOrMemref int8_t :=
  mkTensorOrMemref 1%positive matrix_2x3.

(** A two-element [int8_t] view of a buffer of one byte. *)
Definition unbacked_heap : heap := {[ 1%positive := mkBuffer [x01] false ]}.
Definition unbacked : TensorOrMemref int8_t :=
  mkTensorOrMemref 1%positive (mkBufferView 0 [2] [1] None false).

(** An [int8_t] value over a view with negative sizes. *)
Definition negative_size : TensorOrMemref int8_t :=
  mkTensorOrMemref 1%positive (mkBufferView 0 [-1; -1] [1; 1] None false).

(** A one-element [std::complex<float>] tensor holding (1.0, 1.0). *)
Definition complex_one_buffer : Buffer :=
  mkBuffer (encode (mkComplex float_one float_one)) false.
Definition complex_one_heap : heap := {[ 1%positive := complex_one_buffer ]}.
Definition complex_one : TensorOrMemref complex :=
  mkTensorOrMemref 1%positive scalar_view.

(** A view of 2^31 x 2^31 elements: 2^62 of them, 2^64 bytes of [float]. *)
Definition wrapping_view : BufferView :=
  mkBufferView 0 [2 ^ 31; 2 ^ 31] [] None false.

(** A tensor of one vector without lanes: no element, no byte. *)
Definition no_lanes_buffer : Buffer := mkBuffer [] false.
Definition no_lanes_heap : heap := {[ 1%positive := no_lanes_buffer ]}.
Definition no_lanes : TensorOrMemref int8_t :=
  mkTensorOrMemref 1%positive (mkBufferView 0 [1; 0] [0; 1] (Some 1) false).

(** *** Construction and [rank] *)

(** [BufferView] is an aggregate: brace initialisation stores the members
    and runs no code of the class. *)
Definition construct (off : Z) (szs strs : list Z) (nvd : option Z)
    (isVec : bool) : outcome BufferView :=
  Ok (mkBufferView off szs strs nvd isVec).

(** "[rank()] = [sizes.length - numVectorDims.orElse(0)].  Must never be
    negative; constructing a view that violates this [...] fails fast". *)
Definition rank_never_negative (off : Z) (szs strs : list Z) (nvd : option Z)
    (isVec : bool) : Prop :=
  match construct off szs strs nvd isVec with
  | Ok v => rank v = Z.of_nat (length szs) - value_or nvd 0 ∧ 0 ≤ rank v
  | AssertionFailed _ => Z.of_nat (length szs) < value_or nvd 0
  | _ => False
  end.

(** A tensor of shape [2, 3] of vectors of shape [4]. *)
Definition vectors_2x3x4 : BufferView :=
  mkBufferView 0 [2; 3; 4] [12; 4; 1] (Some 1) false.

(** *** [subview] *)

(** Modelled from the spec: the body of [BufferView::subview] is in the absent
    [.cc] file.  "Applies an independent offset/size/stride triple per
    dimension simultaneously (general form of slice); returns failure
    (boolean false) if the resulting region would be invalid (any requested
    size exceeds the current bound after accounting for the requested
    stride) — it must not silently produce an out-of-bounds view."  A
    requested region is taken to be valid in a dimension when its size is
    not negative and every index it touches, [offset + k * stride] for
    [0 <= k < size], lies within the current bound. *)
Definition touches_in_bounds (bound subviewoffset subviewsize subviewstride : Z)
    : bool :=
  (0 <=? subviewsize)
  && forallb (λ k, (0 <=? subviewoffset + k * subviewstride)
                   && (subviewoffset + k * subviewstride <? bound))
             (seqZ 0 subviewsize).

(** Modelled from the spec: the loop of [BufferView::subview] over the
    dimensions.  The triples are matched with the leading dimensions, a
    dimension without triple is kept; the result is the shift of the offset,
    the new sizes and the new strides, "general form of slice": the offset
    moves by [offset * stride], the stride is multiplied. *)
Fixpoint subview_dims (szs strs subviewoffsets subviewsizes subviewstrides
    : list Z) : option (Z * list Z * list Z) :=
  match szs, strs, subviewoffsets, subviewsizes, subviewstrides with
  | s :: szs', st :: strs', o :: offs', ss :: sizes', sst :: strides' =>
      if touches_in_bounds s o ss sst then
        match subview_dims szs' strs' offs' sizes' strides' with
        | Some (d, new_sizes, new_strides) =>
            Some (o * st + d, ss :: new_sizes, st * sst :: new_strides)
        | None => None
        end
      else None
  | _, _, _, _, _ => Some (0, szs, strs)
  end.

(** Modelled from the spec: [bool subview(ArrayRef<int64_t> subviewoffsets,
    ArrayRef<int64_t> subviewsizes, ArrayRef<int64_t> subviewstrides)] is
    declared in the header, its body is in the absent [.cc] file.  The model
    returns the flag and the view afterwards, unchanged on failure. *)
Definition subview (v : BufferView)
    (subviewoffsets subviewsizes subviewstrides : list Z)
    : bool * BufferView :=
  match subview_dims (sizes v) (strides v)
          subviewoffsets subviewsizes subviewstrides with
  | Some (d, new_sizes, new_strides) =>
      (true, mkBufferView (offset v + d) new_sizes new_strides
               (numVectorDims v) (isVector v))
  | None => (false, v)
  end.

(** The index of the original view that an index of the subview stands
    for. *)
Fixpoint parent_index (subviewoffsets subviewstrides idx : list Z) : list Z :=
  match subviewoffsets, subviewstrides, idx with
  | o :: offs', sst :: strides', i :: idx' =>
      o + i * sst :: parent_index offs' strides' idx'
  | _, _, _ => idx
  end.

(** *** Further notions used to state properties of the header *)

(** The tuples of an index sequence, without the iterator the loop stops
    at. *)
Definition tuples_of {A B} (m : outcome (A * B)) : outcome A :=
  '(a, _) ← m; Ok a.

(** The position of an index tuple in row-major order: the number of
    in-bounds tuples before it.  [position_rev] takes the tuple and the
    sizes with the last dimension first. *)
Fixpoint position_rev (a rds : list Z) : Z :=
  match a, rds with
  | i :: a', s :: rds' => i + s * position_rev a' rds'
  | _, _ => 0
  end.

Definition position (t szs : list Z) : Z :=
  position_rev (reverse t) (reverse szs).

(** [t.at(idx) = x;]: the non-const [at], and an assignment through the
    reference it returns. *)
Definition set_element {T} {E : ElementType T} (h : heap)
    (t : TensorOrMemref T) (idx : list Z) (x : T) : outcome heap :=
  ptr ← at_ h t idx; write h t ptr x.

(** [only_fills h l n h1]: the heap [h1] is [h] but for the buffer [l],
    which is live and holds [n] bytes. *)
Definition only_fills (h : heap) (l : loc) (n : nat) (h1 : heap) : Prop :=
  (∀ l', l' ≠ l → h1 !! l' = h !! l') ∧
  ∃ b, h1 !! l = Some b ∧ isDeallocated b = false ∧ length (storage b) = n.

(** [t.buffer->deallocate();] *)
Definition deallocate_buffer {T} (h : heap) (t : TensorOrMemref T)
    : outcome heap :=
  b ← deref h (buffer t); Ok (<[buffer t := deallocate b]> h).

(** The operations that write through the pointer [Buffer::at] returns. *)
Definition is_poke (op : BufferOp) : bool :=
  match op with OpPoke _ _ _ => true | _ => false end.

(** [for (const auto& i : t.view.indices()) {
       auto v = t.vectorAt(i);
       for (const auto& j : v.view.indices()) body(i ++ j); }]:
    the tuples the inner body sees for one [i], and for all of them. *)
Definition lanes {T} (fuel : nat) (t : TensorOrMemref T) (i : list Z)
    : outcome (list (list Z)) :=
  s ← vectorAt t i;
  inner ← tuples_of (indices fuel (view (T := T) s) false);
  Ok ((λ j, i ++ j) <$> (inner : list (list Z))).

Fixpoint for_each_vector {T} (fuel : nat) (t : TensorOrMemref T)
    (outer : list (list Z)) : outcome (list (list Z)) :=
  match outer with
  | [] => Ok []
  | i :: outer' =>
      l ← lanes fuel t i;
      rest ← for_each_vector fuel t outer';
      Ok (l ++ rest)
  end.

(** The result of cloning the 2x3 matrix. *)
Definition matrix_clone : heap * TensorOrMemref int8_t :=
  match clone (L := row_major_layout) 6 matrix_heap matrix [] with
  | Ok r => r
  | _ => (matrix_heap, matrix)
  end.

(** A 2x3x4 tensor of [int8_t] vectors over 24 bytes. *)
Definition vectors_heap : heap :=
  {[ 1%positive := mkBuffer (replicate 24 x07) false ]}.
Definition vectors : TensorOrMemref int8_t :=
  mkTensorOrMemref 1%positive vectors_2x3x4.

(** * Proofs *)

(** ** The index sequence *)

Lemma wrap64_small (z : Z) : - 2 ^ 63 ≤ z < 2 ^ 63 → wrap64 z = z.
Proof. intros Hz. unfold wrap64. rewrite Z.mod_small; lia. Qed.

(** *** [carry] steps through the odometer *)

Lemma first_or_app {A} (stop : option A) l1 l2 :
  first_or (first_or stop l2) l1 = first_or stop (l1 ++ l2).
Proof. by destruct l1. Qed.

Lemma linked_app rds l1 l2 stop :
  linked rds l1 (first_or stop l2) → linked rds l2 stop →
  linked rds (l1 ++ l2) stop.
Proof.
  intros H1 H2. induction l1 as [|a l1 IH]; [done|].
  destruct H1 as [Ha H1]. simpl. split; [|by apply IH].
  by rewrite <- first_or_app.
Qed.

Lemma linked_block (s : Z) rds t r (m : Z) :
  0 < s < 2 ^ 63 → 0 ≤ m →
  LogicalIndexView.carry t rds = Ok r →
  linked (s :: rds) ((λ i, i :: t) <$> seqZ m (s - m)) (cons 0 <$> r).
Proof.
  intros Hs Hm Ht.
  remember (Z.to_nat (s - m)) as n eqn:Hn.
  revert m Hm Hn. induction n as [|n IH]; intros m Hm Hn.
  - rewrite seqZ_nil by lia. done.
  - rewrite seqZ_cons by lia. cbn [fmap list_fmap linked].
    replace (Z.pred (s - m)) with (s - Z.succ m) by lia.
    split; [|apply IH; lia].
    cbn [LogicalIndexView.carry]. rewrite wrap64_small by lia.
    destruct (decide (m + 1 < s)) as [Hlt|Hge].
    + rewrite (proj2 (Z.ltb_lt _ _)) by done.
      rewrite (seqZ_cons (Z.succ m)) by lia. simpl. by rewrite Z.add_1_r.
    + rewrite (proj2 (Z.ltb_ge _ _)) by lia.
      rewrite Ht. rewrite seqZ_nil by lia. done.
Qed.

Lemma linked_bind (s : Z) rds l stop :
  0 < s < 2 ^ 63 →
  linked rds l stop →
  linked (s :: rds) (l ≫= λ t, (λ i, i :: t) <$> seqZ 0 s) (cons 0 <$> stop).
Proof.
  intros Hs. induction l as [|a l IH]; [done|].
  intros [Ha Hl]. rewrite bind_cons. apply linked_app; [|by apply IH].
  replace (seqZ 0 s) with (seqZ 0 (s - 0)) at 1 by (f_equal; lia).
  replace (first_or _ _) with (cons 0 <$> first_or stop l).
  { apply linked_block; [done|lia|done]. }
  destruct l as [|b l]; [done|].
  rewrite bind_cons, (seqZ_cons 0 s) by lia. done.
Qed.

Lemma linked_odometer rds :
  Forall (λ s, 0 < s < 2 ^ 63) rds → linked rds (odometer rds) None.
Proof.
  induction 1 as [|s rds Hs _ IH]; [done|].
  apply (linked_bind s rds _ None Hs IH).
Qed.

(** *** The tuples of the odometer *)

Lemma elem_of_odometer rds a : a ∈ odometer rds ↔ Forall2 digit a rds.
Proof.
  revert a. induction rds as [|s rds IH]; intros a; simpl.
  - rewrite list_elem_of_singleton. split; [by intros ->|by inversion 1].
  - rewrite list_elem_of_bind. split.
    + intros (t & Ha & Ht). apply list_elem_of_fmap in Ha as (i & -> & Hi).
      apply elem_of_seqZ in Hi. constructor; [unfold digit; lia|by apply IH].
    + inversion 1 as [|i ? t ? Hi Ht]; subst. exists t. split; [|by apply IH].
      apply list_elem_of_fmap. exists i. split; [done|].
      apply elem_of_seqZ. unfold digit in Hi. lia.
Qed.

Lemma NoDup_odometer rds : NoDup (odometer rds).
Proof.
  induction rds as [|s rds IH]; simpl.
  - apply NoDup_singleton.
  - apply NoDup_bind; [| |done].
    + intros t1 t2 a _ _ H1 H2.
      apply list_elem_of_fmap in H1 as (i & -> & _).
      apply list_elem_of_fmap in H2 as (j & Heq & _). congruence.
    + intros t _. apply NoDup_fmap_2; [|apply NoDup_seqZ].
      intros i j. congruence.
Qed.

Lemma length_bind_const {A B} (f : A → list B) (n : nat) (l : list A) :
  (∀ x, length (f x) = n) → length (l ≫= f) = (length l * n)%nat.
Proof.
  intros Hf. induction l as [|x l IH]; [done|].
  rewrite bind_cons, length_app, Hf, IH. simpl. lia.
Qed.

Lemma length_odometer rds :
  Forall (λ s, 0 ≤ s) rds → Z.of_nat (length (odometer rds)) = product rds.
Proof.
  induction 1 as [|s rds Hs _ IH]; [done|]. simpl.
  rewrite (length_bind_const _ (Z.to_nat s)).
  - rewrite Nat2Z.inj_mul, Z2Nat.id, IH by lia. unfold product. simpl. lia.
  - intros t. by rewrite length_fmap, length_seqZ.
Qed.

Lemma product_app l1 l2 : product (l1 ++ l2) = product l1 * product l2.
Proof.
  unfold product. induction l1 as [|x l1 IH]; simpl; [lia|]. rewrite IH. lia.
Qed.

Lemma product_reverse l : product (reverse l) = product l.
Proof.
  induction l as [|x l IH]; [done|].
  rewrite reverse_cons, product_app, IH. unfold product. simpl. lia.
Qed.

Lemma product_nonneg l : Forall (λ s, 0 ≤ s) l → 0 ≤ product l.
Proof. induction 1; unfold product in *; simpl; lia. Qed.

Lemma product_positive l :
  Forall (λ s, 0 ≤ s) l → product l ≠ 0 → Forall (λ s, 0 < s) l.
Proof.
  induction 1 as [|s l Hs Hl IH]; [done|]. unfold product in *. simpl.
  intros Hne. destruct (decide (s = 0)) as [->|Hs0]; [lia|].
  constructor; [lia|]. apply IH. intros Hp. rewrite Hp in Hne. lia.
Qed.

Lemma odometer_head rds :
  Forall (λ s, 0 < s) rds →
  ∃ l, odometer rds = replicate (length rds) 0 :: l.
Proof.
  induction 1 as [|s rds Hs _ [l IH]]; [by exists []|]. simpl.
  rewrite IH, bind_cons, (seqZ_cons 0 s) by lia. simpl. eauto.
Qed.

(** *** Row-major order *)

Lemma row_major_lt_app t u x y :
  row_major_lt t u → row_major_lt (t ++ x) (u ++ y).
Proof. induction 1; simpl; by constructor. Qed.

Lemma row_major_lt_snoc t (i j : Z) :
  i < j → row_major_lt (t ++ [i]) (t ++ [j]).
Proof. intros Hij. induction t; simpl; by constructor. Qed.

Lemma StronglySorted_fmap_seqZ (f : Z → list Z) (m n : Z) :
  (∀ i j, i < j → row_major_lt (f i) (f j)) →
  StronglySorted row_major_lt (f <$> seqZ m n).
Proof.
  intros Hf. remember (Z.to_nat n) as k eqn:Hk. revert m n Hk.
  induction k as [|k IH]; intros m n Hk.
  - rewrite seqZ_nil by lia. constructor.
  - rewrite seqZ_cons by lia. simpl. constructor; [apply IH; lia|].
    apply Forall_fmap, Forall_seqZ. intros i Hi. apply Hf. lia.
Qed.

Lemma StronglySorted_rowMajor_rev rds :
  StronglySorted row_major_lt (reverse <$> odometer rds).
Proof.
  induction rds as [|s rds IH]; simpl.
  - repeat constructor.
  - induction (odometer rds) as [|t l IHl]; [constructor|].
    rewrite bind_cons, fmap_app. simpl in IH.
    apply StronglySorted_cons in IH as [Hlt IH].
    apply StronglySorted_app_2; [| |by apply IHl].
    + intros a b Ha Hb.
      apply list_elem_of_fmap in Ha as (a' & -> & Ha).
      apply list_elem_of_fmap in Ha as (i & -> & _).
      apply list_elem_of_fmap in Hb as (b' & -> & Hb).
      apply list_elem_of_bind in Hb as (u & Hb & Hu).
      apply list_elem_of_fmap in Hb as (j & -> & _).
      rewrite !reverse_cons. apply row_major_lt_app.
      rewrite Forall_fmap, Forall_forall in Hlt. by apply Hlt.
    + rewrite <- list_fmap_compose.
      apply StronglySorted_fmap_seqZ. intros i j Hij. simpl.
      rewrite !reverse_cons. by apply row_major_lt_snoc.
Qed.

(** *** The iterator on a well-formed view *)

Lemma getNumElements_product v incl :
  getNumElements v incl = product (logicalSizes v incl).
Proof. done. Qed.

Lemma rank_well_formed v :
  well_formed v →
  rank v = Z.of_nat (length (sizes v)) - value_or (numVectorDims v) 0.
Proof. intros [_ ? ?]. unfold rank. apply wrap64_small. lia. Qed.

Lemma Forall2_digit_inBounds t ds :
  Forall2 digit t ds ↔ length t = length ds ∧ inBounds_at t ds = true.
Proof.
  revert ds. induction t as [|i t IH]; intros [|s ds]; simpl.
  - split; [done|constructor].
  - split; [inversion 1|intros [? _]; done].
  - split; [inversion 1|intros [? _]; done].
  - rewrite Forall2_cons, IH, !andb_true_iff, Z.leb_le, Z.ltb_lt.
    unfold digit. intuition congruence.
Qed.

Lemma inBounds_at_take t szs n :
  (length t ≤ n)%nat → inBounds_at t (take n szs) = inBounds_at t szs.
Proof.
  revert szs n. induction t as [|i t IH]; intros [|s szs] [|n] Hn; simpl in *;
    try done; try lia.
  rewrite IH by lia. done.
Qed.

Lemma elem_of_rowMajor ds t : t ∈ rowMajor ds ↔ Forall2 digit t ds.
Proof.
  unfold rowMajor. rewrite list_elem_of_fmap. split.
  - intros (a & -> & Ha). apply elem_of_odometer in Ha.
    apply Forall2_reverse in Ha. by rewrite reverse_involutive in Ha.
  - intros Ht. exists (reverse t). rewrite reverse_involutive. split; [done|].
    apply elem_of_odometer. by apply Forall2_reverse.
Qed.

Lemma NoDup_rowMajor ds : NoDup (rowMajor ds).
Proof.
  apply NoDup_fmap_2; [|apply NoDup_odometer].
  intros a b Hab. by rewrite <- (reverse_involutive a), Hab, reverse_involutive.
Qed.

Lemma length_rowMajor ds :
  Forall (λ s, 0 ≤ s) ds → Z.of_nat (length (rowMajor ds)) = product ds.
Proof.
  intros Hds. unfold rowMajor.
  rewrite length_fmap, length_odometer, product_reverse; [done|].
  by apply Forall_reverse.
Qed.

Lemma StronglySorted_rowMajor ds : StronglySorted row_major_lt (rowMajor ds).
Proof. apply StronglySorted_rowMajor_rev. Qed.

Lemma reverse_not_sentinel a rds : Forall2 digit a rds → reverse a ≠ [-1].
Proof.
  intros Ha Heq. assert (a = [-1]) as ->.
  { by rewrite <- (reverse_involutive a), Heq. }
  inversion Ha as [|? ? ? ? Hd _]; subst. unfold digit in Hd. lia.
Qed.

Lemma sizeIt_well_formed v incl :
  well_formed v → LogicalIndexView.sizeIt v incl = Ok (reverse (logicalSizes v incl)).
Proof.
  intros Hwf. pose proof (rank_well_formed v Hwf) as Hr.
  destruct Hwf as [_ Hlen Hnvd]. unfold LogicalIndexView.sizeIt, logicalSizes.
  destruct incl; [done|]. unfold LogicalIndexView.advance.
  rewrite length_reverse.
  rewrite (proj2 (Z.leb_le _ _)), (proj2 (Z.leb_le _ _)) by lia. simpl.
  rewrite reverse_take. do 2 f_equal. lia.
Qed.

Lemma run_linked v incl rds l a :
  LogicalIndexView.sizeIt v incl = Ok rds →
  linked rds (a :: l) None →
  Forall (λ x, reverse x ≠ [-1]) (a :: l) →
  ∀ fuel, (length (a :: l) ≤ fuel)%nat →
  LogicalIndexView.run fuel v (LogicalIndexView.mkIterator v (reverse a) incl)
  = Ok (reverse <$> (a :: l), LogicalIndexView.mkIterator v [-1] incl).
Proof.
  intros Hsz. revert a. induction l as [|b l IH]; intros a [Ha Hl] Hne fuel Hfuel;
    (destruct fuel as [|fuel]; [simpl in Hfuel; lia|]);
    apply Forall_cons in Hne as [Hne1 Hne];
    cbn [LogicalIndexView.run]; unfold LogicalIndexView.eqb at 1;
    cbn [LogicalIndexView.viewIndices LogicalIndexView.end_];
    rewrite bool_decide_eq_false_2 by done;
    unfold LogicalIndexView.next;
    cbn [LogicalIndexView.viewIndices LogicalIndexView.includeVectorDims
         LogicalIndexView.view];
    rewrite Hsz; cbn [mbind outcome_mbind outcome_bind];
    rewrite reverse_involutive, Ha; cbn [mbind outcome_mbind outcome_bind first_or].
  - destruct fuel; done.
  - rewrite (IH b Hl Hne) by (simpl in *; lia). done.
Qed.

Lemma logicalSizes_bounded v incl :
  well_formed v → Forall (λ s, 0 ≤ s < 2 ^ 63) (logicalSizes v incl).
Proof.
  intros [Hs _ _]. unfold logicalSizes. destruct incl; [done|].
  by apply Forall_take.
Qed.

Lemma length_logicalSizes v (incl : bool) :
  well_formed v →
  Z.to_nat (to_size_t (wrap64 (rank v + (if incl
                                        then value_or (numVectorDims v) 0
                                        else 0))))
  = length (logicalSizes v incl).
Proof.
  intros Hwf. pose proof (rank_well_formed v Hwf) as Hr.
  destruct Hwf as [_ Hlen Hnvd]. unfold logicalSizes, to_size_t.
  destruct incl.
  - rewrite wrap64_small, Z.mod_small by lia. lia.
  - rewrite wrap64_small, Z.mod_small by lia. rewrite length_take. lia.
Qed.

Lemma product_logicalSizes_zero v incl :
  product (logicalSizes v false) = 0 → product (logicalSizes v incl) = 0.
Proof.
  destruct incl; [|done]. unfold logicalSizes. intros H0.
  rewrite <- (take_drop (Z.to_nat (rank v)) (sizes v)), product_app, H0. lia.
Qed.

Lemma run_end fuel v :
  LogicalIndexView.run fuel v (LogicalIndexView.end_ v)
  = Ok ([], LogicalIndexView.end_ v).
Proof. by destruct fuel. Qed.

Lemma indices_rowMajor v incl :
  well_formed v →
  getNumElements v false = 0 ∨ getNumElements v incl ≠ 0 →
  ∃ last,
    LogicalIndexView.viewIndices last = [-1] ∧
    ∀ fuel, (length (rowMajor (logicalSizes v incl)) ≤ fuel)%nat →
      indices fuel v incl = Ok (rowMajor (logicalSizes v incl), last).
Proof.
  intros Hwf Hguard. pose proof (logicalSizes_bounded v incl Hwf) as Hb.
  unfold indices, LogicalIndexView.begin.
  destruct (getNumElements v false =? 0) eqn:Hz.
  - apply Z.eqb_eq in Hz. exists (LogicalIndexView.end_ v). split; [done|].
    intros fuel _. rewrite run_end. do 2 f_equal.
    assert (length (rowMajor (logicalSizes v incl)) = 0%nat) as Hlen.
    { apply Nat2Z.inj. rewrite length_rowMajor.
      - by apply product_logicalSizes_zero.
      - eapply Forall_impl; [exact Hb|]. simpl. lia. }
    by destruct (rowMajor _).
  - apply Z.eqb_neq in Hz. destruct Hguard as [|Hne]; [done|].
    rewrite getNumElements_product in Hne.
    assert (Forall (λ s, 0 < s < 2 ^ 63) (reverse (logicalSizes v incl))) as Hpos.
    { apply Forall_reverse.
      assert (Forall (λ s, 0 < s) (logicalSizes v incl)) as Hp.
      { apply product_positive; [|done].
        eapply Forall_impl; [exact Hb|]. simpl. lia. }
      rewrite Forall_forall in *. intros s Hs.
      specialize (Hb s Hs). specialize (Hp s Hs). simpl in *. lia. }
    destruct (odometer_head (reverse (logicalSizes v incl))) as [l Hl].
    { eapply Forall_impl; [exact Hpos|]. simpl. lia. }
    exists (LogicalIndexView.mkIterator v [-1] incl). split; [done|].
    intros fuel Hfuel. rewrite length_logicalSizes by done.
    unfold rowMajor in *. rewrite Hl in *. rewrite length_reverse in *.
    rewrite <- (reverse_replicate (length _) 0) at 1.
    apply (run_linked v incl (reverse (logicalSizes v incl))).
    + by apply sizeIt_well_formed.
    + rewrite <- Hl. by apply linked_odometer.
    + rewrite <- Hl. apply Forall_forall. intros x Hx.
      apply elem_of_odometer in Hx. by eapply reverse_not_sentinel.
    + by rewrite length_fmap in Hfuel.
Qed.

Lemma indices_enumerate_guarded v incl :
  well_formed v →
  getNumElements v false = 0 ∨ getNumElements v incl ≠ 0 →
  indices_enumerate v incl.
Proof.
  intros Hwf Hguard.
  destruct (indices_rowMajor v incl Hwf Hguard) as (last & Hlast & Hrun).
  exists (rowMajor (logicalSizes v incl)), last.
  split; [done|]. split.
  { unfold LogicalIndexView.eqb. rewrite Hlast. by apply bool_decide_eq_true_2. }
  split; [done|]. split.
  { intros t. rewrite elem_of_rowMajor, Forall2_digit_inBounds.
    unfold inBounds, logicalSizes. destruct incl; [done|].
    split; intros [Hlen Hin]; (split; [done|]).
    - rewrite inBounds_at_take in Hin; [done|].
      rewrite Hlen, length_take. lia.
    - rewrite inBounds_at_take; [done|].
      rewrite Hlen, length_take. lia. }
  split; [apply NoDup_rowMajor|].
  split; [apply StronglySorted_rowMajor|].
  rewrite getNumElements_product. apply length_rowMajor.
  eapply Forall_impl; [by apply logicalSizes_bounded|]. simpl. lia.
Qed.

(** When the tuples to enumerate are fewer than 2^63 and [begin()] judges
    emptiness correctly, the number [begin()] tests fits [int64_t] too. *)
Lemma product_take_le (n : nat) (l : list Z) :
  Forall (λ s, 0 < s) l → product (take n l) ≤ product l.
Proof.
  intros Hpos. rewrite <- (take_drop n l) at 2. rewrite product_app.
  assert (0 < product (take n l)) as H1.
  { assert (Forall (λ s, 0 < s) (take n l)) as Ht by by apply Forall_take.
    clear Hpos. induction Ht as [|s k Hs _ IH]; [done|].
    change (product (s :: k)) with (s * product k). lia. }
  assert (0 < product (drop n l)) as H2.
  { assert (Forall (λ s, 0 < s) (drop n l)) as Ht by by apply Forall_drop.
    clear Hpos H1. induction Ht as [|s k Hs _ IH]; [done|].
    change (product (s :: k)) with (s * product k). lia. }
  nia.
Qed.

Lemma getNumElements_tensor_fits v incl :
  well_formed v →
  getNumElements v incl < 2 ^ 63 →
  getNumElements v false = 0 ∨ getNumElements v incl ≠ 0 →
  0 ≤ getNumElements v false < 2 ^ 63 ∧ 0 ≤ getNumElements v incl < 2 ^ 63.
Proof.
  intros Hwf Hfit Hguard.
  assert (∀ b, 0 ≤ getNumElements v b) as Hnn.
  { intros b. apply product_nonneg.
    eapply Forall_impl; [by apply logicalSizes_bounded|]. simpl. lia. }
  split; [|by split]. split; [done|].
  destruct incl; [|done]. destruct Hguard as [->|Hne]; [done|].
  eapply Z.le_lt_trans; [|exact Hfit].
  apply product_take_le, product_positive; [|done].
  eapply Forall_impl; [apply Hwf|]. simpl. lia.
Qed.

(** C1 (amended).  For a well-formed view with fewer than 2^63 tuples to
    enumerate, so that [getNumElements] returns their number as the
    [int64_t] it is declared to be, and whose emptiness [begin()] judges
    correctly (the tensor dimensions hold no element, or the enumerated
    dimensions hold some), [indices(includeVectorDims)] yields exactly the
    in-bounds tuples over the enumerated dimensions, once each, in row-major
    order, [getNumElements(includeVectorDims)] of them, and stops at the
    sentinel [-1]. *)
Theorem indices_enumerate_row_major v incl :
  well_formed v →
  getNumElements v incl < 2 ^ 63 →
  getNumElements v false = 0 ∨ getNumElements v incl ≠ 0 →
  indices_enumerate v incl.
Proof. intros Hwf _ Hguard. by apply indices_enumerate_guarded. Qed.

Lemma well_formed_matrix_2x3 : well_formed matrix_2x3.
Proof.
  split; simpl; [|lia|lia]. repeat (constructor; [lia|]). constructor.
Defined.

Lemma indices_enumerate_row_major_witness : indices_enumerate matrix_2x3 false.
Proof.
  apply indices_enumerate_row_major.
  - apply well_formed_matrix_2x3.
  - vm_compute. reflexivity.
  - right. vm_compute. discriminate.
Defined.

(** Without the vector dimensions the emptiness test is the right one. *)
Lemma indices_enumerate_tensor_dims v :
  well_formed v → getNumElements v false < 2 ^ 63 → indices_enumerate v false.
Proof.
  intros Hwf _. apply indices_enumerate_guarded; [done|].
  destruct (decide (getNumElements v false = 0)); [by left|by right].
Qed.

(** With them it is as long as no vector dimension has size 0. *)
Lemma indices_enumerate_vector_dims v :
  well_formed v →
  getNumElements v true < 2 ^ 63 →
  Forall (λ s, s ≠ 0) (drop (Z.to_nat (rank v)) (sizes v)) →
  indices_enumerate v true.
Proof.
  intros Hwf _ Hvec. apply indices_enumerate_guarded; [done|].
  destruct (decide (getNumElements v false = 0)) as [|Hne]; [by left|right].
  rewrite !getNumElements_product in *. unfold logicalSizes in *.
  rewrite <- (take_drop (Z.to_nat (rank v)) (sizes v)), product_app.
  assert (product (drop (Z.to_nat (rank v)) (sizes v)) ≠ 0); [|lia].
  clear Hne. induction Hvec as [|s l Hs _ IH]; [done|].
  change (product (s :: l)) with (s * product l). lia.
Qed.

(** With a zero-size vector dimension next to non-empty tensor dimensions,
    [indices(true)] yields tuples that are out of bounds. *)
Lemma indices_zero_lanes :
  indices 2 zero_lane_view true
  = Ok ([[0; 0]; [1; 0]],
        LogicalIndexView.mkIterator zero_lane_view [-1] true).
Proof. reflexivity. Qed.

Lemma run_fuel_mono fuel v it r :
  LogicalIndexView.run fuel v it = Ok r →
  ∀ fuel', (fuel ≤ fuel')%nat → LogicalIndexView.run fuel' v it = Ok r.
Proof.
  revert it r. induction fuel as [|fuel IH]; intros it r Hrun fuel' Hle.
  - destruct fuel'; simpl in *; by destruct (LogicalIndexView.eqb _ _).
  - destruct fuel' as [|fuel']; [lia|]. simpl in *.
    destruct (LogicalIndexView.eqb _ _); [done|].
    destruct (LogicalIndexView.next it) as [it'| | |]; simpl in *; try done.
    destruct (LogicalIndexView.run fuel v it') as [r'| | |] eqn:Hr;
      simpl in *; try done.
    rewrite (IH it' r' Hr fuel') by lia. done.
Qed.

(** A view with a negative size yields the tuple [0], which is not in
    bounds: sizes are taken as they come. *)
Lemma indices_negative_size :
  indices 1 negative_size_view false
  = Ok ([[0]], LogicalIndexView.mkIterator negative_size_view [-1] false) ∧
  inBounds negative_size_view [0] = false ∧
  getNumElements negative_size_view false = -1.
Proof. done. Qed.

(** With a negative number of vector dimensions, [operator++] moves
    [sizeIt] backwards from [rbegin()]. *)
Lemma indices_negative_lanes fuel :
  indices (S fuel) negative_lanes_view false = Undefined.
Proof. reflexivity. Qed.

(** C1, as stated, fails on views that nothing rules out, with a negative
    size or with a negative number of vector dimensions, and on the view of
    a 2-element tensor of 0-lane vectors. *)
Lemma indices_enumerate_counterexample :
  ¬ indices_enumerate negative_size_view false ∧
  ¬ indices_enumerate negative_lanes_view false ∧
  ¬ indices_enumerate zero_lane_view true.
Proof.
  split; [|split].
  - intros (tuples & last & Hrun & _ & _ & Hin & _).
    specialize (Hrun (length tuples + 1)%nat ltac:(lia)).
    pose proof (run_fuel_mono _ _ _ _ (proj1 indices_negative_size)
                  (length tuples + 1)%nat ltac:(lia)) as Hrun'.
    unfold indices in Hrun. rewrite Hrun' in Hrun.
    injection Hrun as <- _.
    destruct (Hin [0]) as [[_ Hb] _]; [constructor|]. done.
  - intros (tuples & last & Hrun & _).
    specialize (Hrun (S (length tuples)) ltac:(lia)).
    by rewrite indices_negative_lanes in Hrun.
  - intros (tuples & last & Hrun & _ & _ & Hin & _).
    specialize (Hrun (length tuples + 2)%nat ltac:(lia)).
    pose proof (run_fuel_mono _ _ _ _ indices_zero_lanes
                  (length tuples + 2)%nat ltac:(lia)) as Hrun'.
    unfold indices in Hrun. rewrite Hrun' in Hrun.
    injection Hrun as <- _.
    destruct (Hin [0; 0]) as [[_ Hb] _]; [constructor|]. done.
Qed.

(** ** Emptiness test of [begin()] *)

Lemma begin_end_of_empty_tensor v incl :
  getNumElements v false = 0 →
  LogicalIndexView.begin v incl = LogicalIndexView.end_ v.
Proof.
  intros H0. unfold LogicalIndexView.begin.
  by rewrite (proj2 (Z.eqb_eq _ _) H0).
Qed.

Lemma indices_of_empty_tensor fuel v incl :
  getNumElements v false = 0 →
  indices fuel v incl = Ok ([], LogicalIndexView.end_ v).
Proof.
  intros H0. unfold indices. rewrite begin_end_of_empty_tensor by done.
  apply run_end.
Qed.

(** C2, at the failing input.  The view has no element over all of its
    dimensions, yet [begin()] differs from [end()] and the sequence yields
    two tuples: [begin()] asks [getNumElements()] without the flag. *)
Theorem begin_overlooks_zero_vector_dimension :
  getNumElements zero_lane_view true = 0 ∧
  LogicalIndexView.eqb (LogicalIndexView.begin zero_lane_view true)
                       (LogicalIndexView.end_ zero_lane_view) = false ∧
  ∀ fuel, (2 ≤ fuel)%nat →
    indices fuel zero_lane_view true
    = Ok ([[0; 0]; [1; 0]],
          LogicalIndexView.mkIterator zero_lane_view [-1] true).
Proof.
  split; [done|]. split; [done|]. intros fuel Hfuel.
  by apply (run_fuel_mono _ _ _ _ indices_zero_lanes).
Qed.

(** ** Bytes of a buffer *)

Lemma load_ok b ptr n :
  0 ≤ ptr → ptr + n ≤ Z.of_nat (length (storage b)) →
  load b ptr n = Ok (take (Z.to_nat n) (drop (Z.to_nat ptr) (storage b))).
Proof.
  intros H1 H2. unfold load.
  by rewrite (proj2 (Z.leb_le _ _) H1), (proj2 (Z.leb_le _ _) H2).
Qed.

Lemma store_ok b ptr bytes :
  0 ≤ ptr → ptr + Z.of_nat (length bytes) ≤ Z.of_nat (length (storage b)) →
  store b ptr bytes
  = Ok (mkBuffer (take (Z.to_nat ptr) (storage b) ++ bytes
                  ++ drop (Z.to_nat ptr + length bytes) (storage b))
                 (isDeallocated b)).
Proof.
  intros H1 H2. unfold store.
  by rewrite (proj2 (Z.leb_le _ _) H1), (proj2 (Z.leb_le _ _) H2).
Qed.

Lemma store_inv b ptr bytes b' :
  store b ptr bytes = Ok b' →
  0 ≤ ptr ∧ ptr + Z.of_nat (length bytes) ≤ Z.of_nat (length (storage b)) ∧
  length (storage b') = length (storage b) ∧
  isDeallocated b' = isDeallocated b.
Proof.
  unfold store. destruct (_ && _) eqn:Hc; [|done].
  apply andb_true_iff in Hc as [H1%Z.leb_le H2%Z.leb_le].
  intros [= <-]. simpl.
  rewrite !length_app, length_take, length_drop. repeat split; lia.
Qed.

Lemma load_store_same b ptr bytes b' :
  store b ptr bytes = Ok b' →
  load b' ptr (Z.of_nat (length bytes)) = Ok bytes.
Proof.
  intros Hst. destruct (store_inv _ _ _ _ Hst) as (H1 & H2 & Hlen & _).
  rewrite load_ok by lia. rewrite store_ok in Hst by done.
  injection Hst as <-. simpl. f_equal.
  rewrite drop_app_length'; [|rewrite length_take; lia].
  rewrite Nat2Z.id. by rewrite take_app_length.
Qed.

Lemma load_store_other b ptr bytes b' q n :
  store b ptr bytes = Ok b' →
  0 ≤ q → 0 ≤ n →
  q + n ≤ ptr ∨ ptr + Z.of_nat (length bytes) ≤ q →
  load b' q n = load b q n.
Proof.
  intros Hst Hq Hn Hdisj.
  destruct (store_inv _ _ _ _ Hst) as (H1 & H2 & Hlen & _).
  unfold load. rewrite Hlen.
  destruct (_ && _) eqn:Hrange; [|done].
  apply andb_true_iff in Hrange as [_ Hr%Z.leb_le].
  rewrite store_ok in Hst by done. injection Hst as <-. simpl. f_equal.
  apply list_eq. intros i.
  rewrite !lookup_take, !lookup_drop.
  destruct (decide (i < Z.to_nat n)%nat) as [Hi|Hi]; [|done].
  destruct Hdisj as [Hlow|Hhigh].
  - rewrite lookup_app_l; [|rewrite length_take; lia].
    rewrite lookup_take. case_decide; [done|lia].
  - rewrite lookup_app_r; [|rewrite length_take; lia].
    rewrite lookup_app_r; [|rewrite length_take; lia].
    rewrite lookup_drop, length_take. f_equal. lia.
Qed.

(** ** Row-major strides *)

(** The sizes and strides that the header gives as an example. *)
Example getDefaultStrides_10_11_12 : getDefaultStrides [10; 11; 12] = [132; 12; 1].
Proof. reflexivity. Qed.

Example getPhysicalIndex_matrix_1_2 : getPhysicalIndex matrix_2x3 [1; 2] = 5.
Proof. reflexivity. Qed.

Lemma getDefaultStrides_cons s szs :
  getDefaultStrides (s :: szs) = product szs :: getDefaultStrides szs.
Proof.
  revert s. induction szs as [|s' szs IH]; intros s; [done|].
  change (getDefaultStrides (s :: s' :: szs))
    with (s' * hd 1 (getDefaultStrides (s' :: szs))
          :: getDefaultStrides (s' :: szs)).
  by rewrite (IH s').
Qed.

Lemma length_getDefaultStrides szs :
  length (getDefaultStrides szs) = length szs.
Proof.
  induction szs as [|s szs IH]; [done|].
  rewrite getDefaultStrides_cons. simpl. by rewrite IH.
Qed.

Lemma getDefaultStrides_addresses szs :
  addresses szs (getDefaultStrides szs) (product szs).
Proof.
  induction szs as [|s szs [IHr IHi]].
  - split.
    + intros idx Hidx. inversion Hidx. unfold product. simpl. lia.
    + intros idx idx' H1 H2 _. inversion H1. by inversion H2.
  - rewrite getDefaultStrides_cons. split.
    + intros idx Hidx. inversion Hidx as [|i ? t ? Hi Ht]; subst.
      specialize (IHr t Ht). unfold digit in Hi. simpl.
      change (product (s :: szs)) with (s * product szs). nia.
    + intros idx idx' H1 H2.
      inversion H1 as [|i ? t ? Hi Ht]; subst.
      inversion H2 as [|i' ? t' ? Hi' Ht']; subst. simpl. intros Heq.
      pose proof (IHr t Ht). pose proof (IHr t' Ht').
      assert (i = i') as -> by nia.
      f_equal. apply IHi; [done|done|lia].
Qed.

(** ** Loops over index sequences *)

Lemma run_inv fuel v it tuples last :
  LogicalIndexView.run fuel v it = Ok (tuples, last) →
  (LogicalIndexView.eqb it (LogicalIndexView.end_ v) = true ∧
   tuples = [] ∧ last = it) ∨
  (LogicalIndexView.eqb it (LogicalIndexView.end_ v) = false ∧
   ∃ fuel' it' tuples',
     fuel = S fuel' ∧ LogicalIndexView.next it = Ok it' ∧
     LogicalIndexView.run fuel' v it' = Ok (tuples', last) ∧
     tuples = LogicalIndexView.viewIndices it :: tuples').
Proof.
  destruct fuel as [|fuel]; simpl;
    destruct (LogicalIndexView.eqb _ _); try done.
  - intros [= <- <-]. by left.
  - intros [= <- <-]. by left.
  - destruct (LogicalIndexView.next it) as [it'| | |]; simpl; try done.
    destruct (LogicalIndexView.run fuel v it') as [[tuples' last']| | |] eqn:Hr;
      simpl; try done.
    intros [= <- <-]. right. split; [done|]. by exists fuel, it', tuples'.
Qed.

Lemma range_for_run {S R} fuel v it tuples last
    (body : list Z → S → outcome (flow S R)) s :
  LogicalIndexView.run fuel v it = Ok (tuples, last) →
  range_for fuel v it body s = fold_flow body tuples s.
Proof.
  revert it tuples s. induction fuel as [|fuel IH]; intros it tuples s Hrun;
    apply run_inv in Hrun as [(He & -> & _)|(He & f & it' & tuples' & Hf & Hn & Hr & ->)];
    try done.
  - simpl. by rewrite He.
  - simpl. by rewrite He.
  - injection Hf as <-. simpl. rewrite He.
    destruct (body _ s) as [[s'|r]| | |]; simpl; try done.
    rewrite Hn. simpl. by apply IH.
Qed.

Lemma sizeIt_same_shape v1 v2 incl :
  same_shape v1 v2 →
  LogicalIndexView.sizeIt v1 incl = LogicalIndexView.sizeIt v2 incl.
Proof. intros [Hs Hn]. unfold LogicalIndexView.sizeIt. by rewrite Hs, Hn. Qed.

Lemma next_same_shape it1 it2 it1' :
  same_shape (LogicalIndexView.view it1) (LogicalIndexView.view it2) →
  LogicalIndexView.viewIndices it2 = LogicalIndexView.viewIndices it1 →
  LogicalIndexView.includeVectorDims it2 = LogicalIndexView.includeVectorDims it1 →
  LogicalIndexView.next it1 = Ok it1' →
  ∃ it2',
    LogicalIndexView.next it2 = Ok it2' ∧
    LogicalIndexView.view it1' = LogicalIndexView.view it1 ∧
    LogicalIndexView.view it2' = LogicalIndexView.view it2 ∧
    LogicalIndexView.viewIndices it2' = LogicalIndexView.viewIndices it1' ∧
    LogicalIndexView.includeVectorDims it1'
    = LogicalIndexView.includeVectorDims it1 ∧
    LogicalIndexView.includeVectorDims it2'
    = LogicalIndexView.includeVectorDims it1.
Proof.
  intros Hshape Hidx Hincl. unfold LogicalIndexView.next.
  rewrite Hidx, Hincl, <- (sizeIt_same_shape _ _ _ Hshape).
  destruct (LogicalIndexView.sizeIt _ _) as [rds| | |]; simpl; try done.
  destruct (LogicalIndexView.carry _ _) as [r| | |]; simpl; try done.
  intros [= <-]. eexists. split; [done|]. done.
Qed.

Lemma zip_for_run {S} fuel v1 it1 v2 it2 tuples last
    (body : list Z → list Z → S → outcome S) s :
  LogicalIndexView.run fuel v1 it1 = Ok (tuples, last) →
  same_shape (LogicalIndexView.view it1) (LogicalIndexView.view it2) →
  LogicalIndexView.viewIndices it2 = LogicalIndexView.viewIndices it1 →
  LogicalIndexView.includeVectorDims it2 = LogicalIndexView.includeVectorDims it1 →
  zip_for fuel v1 it1 v2 it2 body s = fold_body (λ t, body t t) tuples s.
Proof.
  revert it1 it2 tuples s.
  induction fuel as [|fuel IH]; intros it1 it2 tuples s Hrun Hshape Hidx Hincl;
    apply run_inv in Hrun as [(He & -> & _)|(He & f & it' & tuples' & Hf & Hn & Hr & ->)];
    try done.
  - simpl. by rewrite He.
  - simpl. by rewrite He.
  - injection Hf as <-.
    assert (LogicalIndexView.eqb it2 (LogicalIndexView.end_ v2) = false) as He2.
    { unfold LogicalIndexView.eqb in *. by rewrite Hidx. }
    simpl. rewrite He, He2, Hidx. simpl.
    destruct (body _ _ s) as [s'| | |]; simpl; try done.
    destruct (next_same_shape it1 it2 it' Hshape Hidx Hincl Hn)
      as (it2' & Hn2 & Hv1 & Hv2 & Hi & Hc1 & Hc2).
    rewrite Hn, Hn2. simpl. apply IH; [done| | |].
    + by rewrite Hv1, Hv2.
    + done.
    + by rewrite Hc1, Hc2.
Qed.

Lemma begin_same_shape v1 v2 incl :
  same_shape v1 v2 →
  LogicalIndexView.viewIndices (LogicalIndexView.begin v2 incl)
  = LogicalIndexView.viewIndices (LogicalIndexView.begin v1 incl) ∧
  LogicalIndexView.includeVectorDims (LogicalIndexView.begin v2 incl)
  = LogicalIndexView.includeVectorDims (LogicalIndexView.begin v1 incl) ∧
  LogicalIndexView.view (LogicalIndexView.begin v1 incl) = v1 ∧
  LogicalIndexView.view (LogicalIndexView.begin v2 incl) = v2.
Proof.
  intros [Hs Hn]. unfold LogicalIndexView.begin, getNumElements, logicalSizes, rank.
  rewrite Hs, Hn. by destruct (_ =? 0).
Qed.

(** ** Element access *)

Section Access.
Context {T : Type} {E : ElementType T}.

Lemma at_ok h (t : TensorOrMemref T) b idx :
  h !! buffer t = Some b → isDeallocated b = false →
  inBounds (view t) idx = true →
  at_ h t idx = Ok (getPhysicalIndex (view t) idx * sizeofT).
Proof.
  intros Hb Hd Hin. unfold at_, deref, Buffer_at. rewrite Hin, Hb. simpl.
  by rewrite Hd.
Qed.

Lemma read_ok h (t : TensorOrMemref T) b v idx :
  h !! buffer t = Some b →
  0 ≤ getPhysicalIndex v idx →
  (getPhysicalIndex v idx + 1) * sizeofT ≤ Z.of_nat (length (storage b)) →
  read h t (getPhysicalIndex v idx * sizeofT) = Ok (peek b v idx).
Proof.
  intros Hb H0 Hlen. pose proof sizeofT_pos as Hsz.
  unfold read, deref. rewrite Hb. simpl. rewrite load_ok by nia. done.
Qed.

Lemma element_ok h (t : TensorOrMemref T) b idx :
  h !! buffer t = Some b → isDeallocated b = false →
  fits b (view t) sizeofT →
  Forall2 digit idx (sizes (view t)) →
  element h t idx = Ok (peek b (view t) idx).
Proof.
  intros Hb Hd Hfits Hidx. unfold element.
  rewrite (at_ok h t b) by
    (try done; by apply Forall2_digit_inBounds in Hidx as [_ ?]).
  simpl. destruct (Hfits idx Hidx). by apply read_ok.
Qed.

(** What the body of the loop of [operator==] computes. *)
Lemma differ_ok h (a b : TensorOrMemref T) x y idx :
  element h a idx = Ok x → element h b idx = Ok y →
  differ h a b idx = Ok (negb (compares_equal x y)).
Proof.
  intros Hx Hy. unfold differ, compares_equal. rewrite Hx, Hy. simpl.
  destruct is_floating_point eqn:Hfp; simpl.
  - destruct (isnan x || isnan y) eqn:Hnan; simpl.
    + by rewrite (ne_nan x y Hfp Hnan).
    + apply orb_false_iff in Hnan as [-> ->]. simpl.
      by rewrite orb_false_r, negb_involutive.
  - by rewrite orb_false_r, negb_involutive.
Qed.

Lemma fold_flow_differ (differs : list Z → outcome bool) (e : list Z → bool)
    tuples :
  (∀ idx, idx ∈ tuples → differs idx = Ok (negb (e idx))) →
  fold_flow (λ idx (_ : unit),
               r ← differs idx;
               Ok (if r : bool then Return false else Continue ()))
            tuples ()
  = Ok (if forallb e tuples then Continue () else Return false).
Proof.
  induction tuples as [|idx tuples IH]; intros Hd; [done|].
  simpl. rewrite (Hd idx) by constructor. simpl.
  destruct (e idx); simpl; [|done].
  apply IH. intros idx' Hin. apply Hd. by constructor.
Qed.

(** [operator==], evaluated. *)
Lemma equal_eval fuel h (a b : TensorOrMemref T) ba bb :
  h !! buffer a = Some ba → h !! buffer b = Some bb →
  well_formed (view a) →
  getNumElements (view a) false = 0 ∨ getNumElements (view a) true ≠ 0 →
  fits ba (view a) sizeofT → fits bb (view b) sizeofT →
  (length (rowMajor (sizes (view a))) ≤ fuel)%nat →
  equal fuel h a b
  = Ok (negb (isDeallocated ba) && negb (isDeallocated bb)
        && bool_decide (sizes (view b) = sizes (view a))
        && bool_decide (numVectorDims (view b) = numVectorDims (view a))
        && forallb (λ idx, compares_equal (peek ba (view a) idx)
                                          (peek bb (view b) idx))
                   (rowMajor (sizes (view a)))).
Proof.
  intros Ha Hb Hwf Hguard Hfa Hfb Hfuel. unfold equal, deref, deallocated.
  rewrite Ha. simpl. destruct (isDeallocated ba) eqn:Hda; [done|].
  rewrite Hb. simpl. destruct (isDeallocated bb) eqn:Hdb; [done|]. simpl.
  destruct (decide (sizes (view b) = sizes (view a))) as [Hs|Hs].
  2:{ rewrite bool_decide_eq_true_2, bool_decide_eq_false_2 by done. done. }
  rewrite bool_decide_eq_false_2, (bool_decide_eq_true_2 _ Hs) by tauto.
  destruct (decide (numVectorDims (view b) = numVectorDims (view a)))
    as [Hn|Hn].
  2:{ rewrite bool_decide_eq_true_2, bool_decide_eq_false_2 by done. done. }
  rewrite bool_decide_eq_false_2, (bool_decide_eq_true_2 _ Hn) by tauto.
  simpl.
  destruct (indices_rowMajor (view a) true Hwf Hguard) as (last & _ & Hrun).
  specialize (Hrun fuel Hfuel). unfold indices in Hrun.
  rewrite (range_for_run _ _ _ _ _ _ _ Hrun).
  change (logicalSizes (view a) true) with (sizes (view a)).
  rewrite (fold_flow_differ _
             (λ idx, compares_equal (peek ba (view a) idx)
                                    (peek bb (view b) idx))).
  - simpl. by destruct (forallb _ _).
  - intros idx Hidx. apply elem_of_rowMajor in Hidx.
    apply differ_ok; apply element_ok; try done. by rewrite Hs.
Qed.

End Access.

(** ** [clone] *)

Section Clone.
Context {T : Type} {E : ElementType T}.
Variables (t out : TensorOrMemref T) (bt : Buffer) (n : Z).
Hypothesis Hne : buffer out ≠ buffer t.
Hypothesis Hbt : isDeallocated bt = false.
Hypothesis Hfits : fits bt (view t) sizeofT.
Hypothesis Hsizes : sizes (view out) = sizes (view t).
Hypothesis Hoff : offset (view out) = 0.
Hypothesis Haddr : addresses (sizes (view t)) (strides (view out)) n.

Lemma assign_ok idx h b :
  Forall2 digit idx (sizes (view t)) →
  h !! buffer t = Some bt → h !! buffer out = Some b →
  isDeallocated b = false →
  Z.of_nat (length (storage b)) = n * sizeofT →
  ∃ b',
    assign t out idx idx h = Ok (<[buffer out := b']> h) ∧
    store b (getPhysicalIndex (view out) idx * sizeofT)
            (encode (peek bt (view t) idx)) = Ok b'.
Proof.
  intros Hidx Ht Ho Hd Hlen. pose proof sizeofT_pos as Hsz.
  pose proof (proj1 Haddr idx Hidx) as Hrange.
  assert (inBounds (view t) idx = true) as Hin.
  { by apply Forall2_digit_inBounds in Hidx as [_ ?]. }
  assert (inBounds (view out) idx = true) as Hin'.
  { unfold inBounds. by rewrite Hsizes. }
  unfold assign. rewrite (at_ok h t bt), (at_ok h out b) by done. simpl.
  destruct (Hfits idx Hidx) as [H0 H1].
  rewrite (read_ok h t bt) by done. simpl.
  unfold write, deref. rewrite Ho. simpl.
  assert (getPhysicalIndex (view out) idx = dot idx (strides (view out)))
    as Hphys by (unfold getPhysicalIndex; rewrite Hoff; lia).
  rewrite store_ok; [by eexists| |].
  - rewrite Hphys. nia.
  - rewrite Hphys, length_encode, Hlen. nia.
Qed.

Lemma assign_all tuples :
  Forall (λ idx, Forall2 digit idx (sizes (view t))) tuples →
  ∀ h b,
    h !! buffer t = Some bt → h !! buffer out = Some b →
    isDeallocated b = false →
    Z.of_nat (length (storage b)) = n * sizeofT →
    ∃ h' b',
      fold_body (λ idx, assign t out idx idx) tuples h = Ok h' ∧
      h' !! buffer t = Some bt ∧ h' !! buffer out = Some b' ∧
      isDeallocated b' = false ∧
      Z.of_nat (length (storage b')) = n * sizeofT ∧
      ∀ idx, Forall2 digit idx (sizes (view t)) →
        load b' (getPhysicalIndex (view out) idx * sizeofT) sizeofT
        = if decide (idx ∈ tuples)
          then Ok (encode (peek bt (view t) idx))
          else load b (getPhysicalIndex (view out) idx * sizeofT) sizeofT.
Proof.
  pose proof sizeofT_pos as Hsz.
  induction 1 as [|idx0 tuples Hidx0 _ IH]; intros h b Ht Ho Hd Hlen.
  { exists h, b. repeat split; done. }
  destruct (assign_ok idx0 h b Hidx0 Ht Ho Hd Hlen) as (b1 & Hcopy & Hst).
  destruct (store_inv _ _ _ _ Hst) as (_ & _ & Hlen1 & Hd1).
  destruct (IH (<[buffer out := b1]> h) b1) as (h' & b' & Hfold & Ht' & Ho' & Hd' & Hlen' & Hload).
  { by rewrite lookup_insert_ne. }
  { by rewrite lookup_insert_eq. }
  { by rewrite Hd1. }
  { by rewrite Hlen1. }
  exists h', b'. simpl. rewrite Hcopy. simpl.
  repeat split; try done. intros idx Hidx. rewrite (Hload idx Hidx).
  destruct (decide (idx ∈ tuples)) as [Hin|Hin].
  { rewrite decide_True; [done|]. by constructor. }
  destruct (decide (idx = idx0)) as [->|Hneq].
  - rewrite decide_True by constructor.
    pose proof (load_store_same _ _ _ _ Hst) as Hl.
    by rewrite length_encode in Hl.
  - rewrite decide_False.
    2:{ intros [?|?]%elem_of_cons; done. }
    assert (dot idx (strides (view out)) ≠ dot idx0 (strides (view out)))
      as Hdot.
    { intros Heq. apply Hneq. by apply (proj2 Haddr). }
    pose proof (proj1 Haddr idx Hidx). pose proof (proj1 Haddr idx0 Hidx0).
    eapply load_store_other; [exact Hst| | |].
    + unfold getPhysicalIndex. rewrite Hoff. nia.
    + lia.
    + rewrite length_encode. unfold getPhysicalIndex. rewrite Hoff. nia.
Qed.

End Clone.

Section CloneEqual.
Context {T : Type} {E : ElementType T} {L : LayoutStrides}.

Lemma well_formed_same_shape v1 v2 :
  same_shape v1 v2 → well_formed v1 → well_formed v2.
Proof. intros [Hs Hn] [? ? ?]. split; by rewrite <- ?Hs, <- ?Hn. Qed.

Lemma getNumElements_same_shape v1 v2 incl :
  same_shape v1 v2 → getNumElements v2 incl = getNumElements v1 incl.
Proof.
  intros [Hs Hn]. unfold getNumElements, logicalSizes, rank.
  by rewrite Hs, Hn.
Qed.

Lemma length_storage_allocate (n : Z) :
  0 ≤ n → n * sizeofT < 2 ^ 64 →
  Z.of_nat (length (storage (allocate sizeofT n))) = n * sizeofT.
Proof.
  intros H0 Hlt. pose proof sizeofT_pos as Hsz.
  unfold allocate, Buffer_new, to_size_t. simpl.
  rewrite length_replicate, (Z.mod_small n) by nia.
  rewrite Z.mod_small by nia. lia.
Qed.

Lemma clone_ok fuel h (t : TensorOrMemref T) layout bt :
  valid h t bt → isDeallocated bt = false →
  getNumElements (view t) false = 0 ∨ getNumElements (view t) true ≠ 0 →
  addresses (sizes (view t)) (getStridesForLayout (sizes (view t)) layout)
            (getNumElements (view t) true) →
  getNumElements (view t) true * sizeofT < 2 ^ 64 →
  (length (rowMajor (sizes (view t))) ≤ fuel)%nat →
  ∃ h' out b',
    clone fuel h t layout = Ok (h', out) ∧
    h' !! buffer t = Some bt ∧ h' !! buffer out = Some b' ∧
    isDeallocated b' = false ∧
    same_shape (view t) (view out) ∧
    fits b' (view out) sizeofT ∧
    ∀ idx, Forall2 digit idx (sizes (view t)) →
      peek b' (view out) idx = peek bt (view t) idx.
Proof.
  intros [Hbt Hwf Hfits] Hd Hguard Haddr Hsize Hfuel.
  pose proof sizeofT_pos as Hsz.
  unfold clone, emptyLike.
  set (l := fresh (dom h)).
  set (out := mkTensorOrMemref l _).
  set (b0 := allocate _ _).
  assert (l ≠ buffer t) as Hl.
  { intros Heq. apply (is_fresh (dom h)). fold l. rewrite Heq.
    apply elem_of_dom. by eexists. }
  assert (same_shape (view t) (view out)) as Hshape by done.
  destruct (indices_rowMajor (view t) true Hwf Hguard) as (last & _ & Hrun).
  specialize (Hrun fuel Hfuel). unfold indices in Hrun.
  change (logicalSizes (view t) true) with (sizes (view t)) in Hrun.
  destruct (begin_same_shape (view t) (view out) true Hshape)
    as (Hb1 & Hb2 & Hb3 & Hb4).
  rewrite (zip_for_run _ _ _ _ _ _ _ _ _ Hrun); [|by rewrite Hb3, Hb4|done|done].
  assert (0 ≤ getNumElements (view t) true) as Hnn.
  { apply product_nonneg. destruct Hwf as [Hs _ _].
    eapply Forall_impl; [exact Hs|]. simpl. lia. }
  destruct (assign_all t out bt (getNumElements (view t) true) Hl Hd Hfits
              eq_refl eq_refl Haddr (rowMajor (sizes (view t))))
    with (h := <[l := b0]> h) (b := b0)
    as (h' & b' & Hfold & Ht' & Ho' & Hd' & Hlen' & Hload).
  { apply Forall_forall. intros idx Hidx. by apply elem_of_rowMajor. }
  { by rewrite lookup_insert_ne. }
  { by rewrite lookup_insert_eq. }
  { done. }
  { by apply length_storage_allocate. }
  rewrite Hfold. simpl. exists h', out, b'.
  split; [done|]. split; [done|]. split; [done|]. split; [done|].
  split; [done|].
  assert (∀ idx, Forall2 digit idx (sizes (view t)) →
            0 ≤ getPhysicalIndex (view out) idx ∧
            (getPhysicalIndex (view out) idx + 1) * sizeofT
            ≤ Z.of_nat (length (storage b'))) as Hfits'.
  { intros idx Hidx. pose proof (proj1 Haddr idx Hidx) as Hr.
    unfold getPhysicalIndex. simpl. rewrite Hlen'. nia. }
  split; [done|].
  intros idx Hidx. specialize (Hload idx Hidx).
  rewrite decide_True in Hload by by apply elem_of_rowMajor.
  destruct (Hfits' idx Hidx) as [H0 H1].
  rewrite load_ok in Hload by nia. injection Hload as Hload.
  rewrite <- (decode_encode (peek bt (view t) idx)).
  unfold peek at 1. f_equal. exact Hload.
Qed.

End CloneEqual.

(** ** Fuel *)

Lemma range_for_mono {S R} fuel fuel' v it
    (body : list Z → S → outcome (flow S R)) s r :
  range_for fuel v it body s = Ok r → (fuel ≤ fuel')%nat →
  range_for fuel' v it body s = Ok r.
Proof.
  revert fuel' it s. induction fuel as [|fuel IH]; intros fuel' it s Hr Hle.
  - destruct fuel'; simpl in *; by destruct (LogicalIndexView.eqb _ _).
  - destruct fuel' as [|fuel']; [lia|]. simpl in *.
    destruct (LogicalIndexView.eqb _ _); [done|].
    destruct (body _ s) as [[s'|r']| | |]; simpl in *; try done.
    destruct (LogicalIndexView.next it) as [it'| | |]; simpl in *; try done.
    apply IH; [done|lia].
Qed.

Lemma zip_for_mono {S} fuel fuel' v1 it1 v2 it2
    (body : list Z → list Z → S → outcome S) s r :
  zip_for fuel v1 it1 v2 it2 body s = Ok r → (fuel ≤ fuel')%nat →
  zip_for fuel' v1 it1 v2 it2 body s = Ok r.
Proof.
  revert fuel' it1 it2 s.
  induction fuel as [|fuel IH]; intros fuel' it1 it2 s Hr Hle.
  - destruct fuel'; simpl in *; by destruct (_ || _).
  - destruct fuel' as [|fuel']; [lia|]. simpl in *.
    destruct (_ || _); [done|].
    destruct (body _ _ s) as [s'| | |]; simpl in *; try done.
    destruct (LogicalIndexView.next it1) as [it1'| | |]; simpl in *; try done.
    destruct (LogicalIndexView.next it2) as [it2'| | |]; simpl in *; try done.
    apply IH; [done|lia].
Qed.

Section Fuel.
Context {T : Type} {E : ElementType T} {L : LayoutStrides}.

Lemma equal_mono fuel fuel' h (a b : TensorOrMemref T) r :
  equal fuel h a b = Ok r → (fuel ≤ fuel')%nat → equal fuel' h a b = Ok r.
Proof.
  unfold equal. intros Hr Hle.
  destruct (deref h (buffer a)) as [ba| | |]; simpl in *; try done.
  destruct (if deallocated ba then _ else _) as [[]| | |]; simpl in *;
    try done.
  repeat (case_bool_decide; [done|]).
  destruct (range_for fuel _ _ _ _) as [fl| | |] eqn:Hrf; simpl in *;
    try done.
  by rewrite (range_for_mono _ _ _ _ _ _ _ Hrf Hle).
Qed.

Lemma clone_mono fuel fuel' h (t : TensorOrMemref T) layout r :
  clone fuel h t layout = Ok r → (fuel ≤ fuel')%nat →
  clone fuel' h t layout = Ok r.
Proof.
  unfold clone. intros Hr Hle.
  destruct (emptyLike h (view t) layout) as [h0 out].
  destruct (zip_for fuel _ _ _ _ _ _) as [h'| | |] eqn:Hz; simpl in *;
    try done.
  by rewrite (zip_for_mono _ _ _ _ _ _ _ _ _ Hz Hle).
Qed.

End Fuel.

(** ** Equality *)

Section Equality.
Context {T : Type} {E : ElementType T}.

Lemma equal_structural h (a b : TensorOrMemref T) ba bb :
  valid h a ba → h !! buffer b = Some bb → fits bb (view b) sizeofT →
  getNumElements (view a) false = 0 ∨ getNumElements (view a) true ≠ 0 →
  equality_is_structural h a b.
Proof.
  intros [Ha Hwf Hfa] Hb Hfb Hguard ba' bb' Ha' Hb'.
  assert (ba' = ba) as -> by congruence.
  assert (bb' = bb) as -> by congruence.
  eexists. split.
  - exists (length (rowMajor (sizes (view a)))). intros fuel Hfuel.
    by apply equal_eval.
  - rewrite !andb_true_iff, !negb_true_iff, !bool_decide_eq_true.
    rewrite forallb_forall. setoid_rewrite <- list_elem_of_In.
    setoid_rewrite elem_of_rowMajor.
    setoid_rewrite Forall2_digit_inBounds. unfold inBounds.
    split.
    + intros ((((? & ?) & ?) & ?) & Hall). repeat split; try done.
      intros idx ? ?. by apply Hall.
    + intros (? & ? & ? & ? & Hall). repeat split; try done.
      intros idx [? ?]. by apply Hall.
Qed.

Lemma equal_deallocated fuel h (a b : TensorOrMemref T) ba bb :
  h !! buffer a = Some ba → h !! buffer b = Some bb →
  isDeallocated ba = true ∨ isDeallocated bb = true →
  equal fuel h a b = Ok false.
Proof.
  intros Ha Hb Hdead. unfold equal, deref, deallocated. rewrite Ha, Hb.
  simpl. destruct (isDeallocated ba); [done|]. simpl.
  destruct Hdead as [?| ->]; done.
Qed.

End Equality.

Lemma equal_nan_nan fuel :
  (1 ≤ fuel)%nat →
  equal fuel float_heap (float_at 1%positive) (float_at 2%positive) = Ok true.
Proof. by apply (equal_mono 1). Qed.

Lemma equal_nan_one fuel :
  (1 ≤ fuel)%nat →
  equal fuel float_heap (float_at 1%positive) (float_at 3%positive) = Ok false.
Proof. by apply (equal_mono 1). Qed.

(** C4 (amended).  For values whose buffers are in the heap and hold every
    element of their views, the first of which is well-formed, when the
    [getNumElements()] that [begin()] tests on the first view fits
    [int64_t], and when [begin()] judges the emptiness of the first view
    correctly, [a == b] returns true iff
    neither buffer is deallocated, sizes and [numVectorDims] are identical
    and all corresponding elements compare equal, two NaNs of a
    floating-point type counting as equal.  Two one-element [float] tensors
    holding NaN are equal; one holding NaN and one holding 1.0 are not. *)
Theorem equal_is_structural_and_nan_tolerant :
  (∀ (T : Type) (E : ElementType T) h (a b : TensorOrMemref T) ba bb,
     valid h a ba → h !! buffer b = Some bb → fits bb (view b) sizeofT →
     getNumElements (view a) false < 2 ^ 63 →
     getNumElements (view a) false = 0 ∨ getNumElements (view a) true ≠ 0 →
     equality_is_structural h a b) ∧
  (∀ fuel, (1 ≤ fuel)%nat →
     equal fuel float_heap (float_at 1%positive) (float_at 2%positive) = Ok true) ∧
  (∀ fuel, (1 ≤ fuel)%nat →
     equal fuel float_heap (float_at 1%positive) (float_at 3%positive) = Ok false).
Proof.
  split; [|split].
  - intros T E h a b ba bb Hv Hb Hf _. by apply (equal_structural h a b ba bb).
  - apply equal_nan_nan.
  - apply equal_nan_one.
Qed.

Lemma fits_row_major b v (elementSize : Z) :
  offset v = 0 → strides v = getDefaultStrides (sizes v) →
  0 < elementSize →
  product (sizes v) * elementSize ≤ Z.of_nat (length (storage b)) →
  fits b v elementSize.
Proof.
  intros Hoff Hstr Hsz Hlen idx Hidx.
  pose proof (proj1 (getDefaultStrides_addresses (sizes v)) idx Hidx) as Hr.
  unfold getPhysicalIndex. rewrite Hoff, Hstr. nia.
Qed.

Lemma well_formed_scalar_view : well_formed scalar_view.
Proof. split; simpl; [|lia|lia]. repeat (constructor; [lia|]). constructor. Qed.

Lemma valid_float_at l b :
  float_heap !! l = Some b → length (storage b) = 4%nat →
  valid float_heap (float_at l) b.
Proof.
  intros Hl Hlen. split; [done|apply well_formed_scalar_view|].
  apply fits_row_major; try done. rewrite Hlen. done.
Qed.

Lemma equal_is_structural_and_nan_tolerant_witness :
  equality_is_structural float_heap (float_at 1%positive) (float_at 2%positive).
Proof.
  apply (proj1 equal_is_structural_and_nan_tolerant float float_element
           float_heap (float_at 1%positive) (float_at 2%positive)
           (mkBuffer (encode float_nan) false)
           (mkBuffer (encode float_nan) false)).
  - apply valid_float_at; reflexivity.
  - reflexivity.
  - apply (valid_fits float_heap (float_at 2%positive)).
    apply valid_float_at; reflexivity.
  - vm_compute. reflexivity.
  - right. vm_compute. discriminate.
Defined.

(** C4, as stated, fails on values that nothing rules out: comparing a
    value whose view reaches past its buffer reads outside of the storage,
    and on a view with negative sizes the loop visits the tuple [0, 0],
    on which [at] asserts.  It also fails on a tensor of one vector without
    lanes: it has no element that could differ, yet comparing it with
    itself trips the bounds assertion of [at] on the tuple [0, 0]. *)
Lemma equality_counterexample :
  ¬ equality_is_structural unbacked_heap unbacked unbacked ∧
  ¬ equality_is_structural unbacked_heap negative_size negative_size ∧
  ¬ equality_is_structural no_lanes_heap no_lanes no_lanes.
Proof.
  split; [|split]; intros Heq.
  - destruct (Heq _ _ eq_refl eq_refl) as (r & (n & Hrun) & _).
    specialize (Hrun (S (S n)) ltac:(lia)). vm_compute in Hrun. discriminate.
  - destruct (Heq _ _ eq_refl eq_refl) as (r & (n & Hrun) & _).
    specialize (Hrun (S n) ltac:(lia)). vm_compute in Hrun. discriminate.
  - destruct (Heq no_lanes_buffer no_lanes_buffer eq_refl eq_refl)
      as (r & (n & Hrun) & _).
    specialize (Hrun (S n) ltac:(lia)). vm_compute in Hrun. discriminate.
Qed.

(** Comparing a value whose view reaches past its buffer reads outside of
    the storage. *)
Lemma equal_unbacked fuel :
  (2 ≤ fuel)%nat → equal fuel unbacked_heap unbacked unbacked = Undefined.
Proof.
  destruct fuel as [|[|fuel]]; [lia|lia|]. intros _. vm_compute. done.
Qed.

Lemma equal_no_lanes fuel :
  (1 ≤ fuel)%nat →
  equal fuel no_lanes_heap no_lanes no_lanes = AssertionFailed "out of bounds".
Proof. destruct fuel as [|fuel]; [lia|]. intros _. vm_compute. done. Qed.

(** ** [clone] then [==] *)

(** The integer and floating-point element types never tell a value from
    itself, NaNs of floating-point types apart. *)
Lemma int8_ne_irreflexive (x : int8_t) :
  is_floating_point (T := int8_t) && isnan x = false → ne x x = false.
Proof. intros _. simpl. by destruct (int8_byte x). Qed.

Lemma float_ne_irreflexive (x : float) :
  is_floating_point (T := float) && isnan x = false → ne x x = false.
Proof.
  simpl. intros Hnan. unfold float_ne. rewrite Hnan, Z.eqb_refl.
  by destruct (float_is_zero x).
Qed.

Lemma forallb_pointwise_on {A} (f g : A → bool) (l : list A) :
  (∀ x, x ∈ l → f x = g x) → forallb f l = forallb g l.
Proof.
  induction l as [|x l IH]; intros Hfg; simpl; [done|].
  rewrite Hfg by constructor. rewrite IH; [done|].
  intros y Hy. apply Hfg. by constructor.
Qed.

Section CloneThenEqual.
Context {T : Type} {E : ElementType T} {L : LayoutStrides}.

(** What [t.clone(layout) == t] returns: whether every element of [t]
    compares equal to itself. *)
Lemma clone_then_equal_result h (t : TensorOrMemref T) layout bt :
  valid h t bt → isDeallocated bt = false →
  getNumElements (view t) false = 0 ∨ getNumElements (view t) true ≠ 0 →
  addresses (sizes (view t)) (getStridesForLayout (sizes (view t)) layout)
            (getNumElements (view t) true) →
  getNumElements (view t) true * sizeofT < 2 ^ 64 →
  ∀ fuel, (length (rowMajor (sizes (view t))) ≤ fuel)%nat →
    ∃ h' out,
      clone fuel h t layout = Ok (h', out) ∧
      equal fuel h' out t
      = Ok (forallb (λ idx, compares_equal (peek bt (view t) idx)
                                           (peek bt (view t) idx))
                    (rowMajor (sizes (view t)))).
Proof.
  intros Hvalid Hd Hguard Haddr Hsize fuel Hfuel.
  destruct (clone_ok fuel h t layout bt Hvalid Hd Hguard Haddr Hsize Hfuel)
    as (h' & out & b' & Hclone & Ht' & Ho' & Hd' & Hshape & Hfits' & Hpeek).
  exists h', out. split; [done|].
  destruct Hvalid as [_ Hwf Hfits]. destruct Hshape as [Hs Hn].
  rewrite (equal_eval fuel h' out t b' bt); try done.
  - rewrite Hd, Hd', Hs, Hn, !bool_decide_eq_true_2 by done. simpl.
    f_equal. rewrite <- Hs. apply forallb_pointwise_on. intros idx Hidx.
    apply elem_of_rowMajor in Hidx. by rewrite Hpeek.
  - by apply (well_formed_same_shape (view t)).
  - by rewrite !(getNumElements_same_shape (view t) (view out)).
  - by rewrite <- Hs.
Qed.

Lemma clone_then_equal h (t : TensorOrMemref T) layout bt :
  valid h t bt → isDeallocated bt = false →
  getNumElements (view t) false = 0 ∨ getNumElements (view t) true ≠ 0 →
  addresses (sizes (view t)) (getStridesForLayout (sizes (view t)) layout)
            (getNumElements (view t) true) →
  getNumElements (view t) true * sizeofT < 2 ^ 64 →
  (∀ idx, Forall2 digit idx (sizes (view t)) →
     compares_equal (peek bt (view t) idx) (peek bt (view t) idx) = true) →
  clone_equals_original h t layout.
Proof.
  intros Hvalid Hd Hguard Haddr Hsize Hself.
  exists (length (rowMajor (sizes (view t)))). intros fuel Hfuel.
  destruct (clone_then_equal_result h t layout bt Hvalid Hd Hguard Haddr Hsize
              fuel Hfuel) as (h' & out & Hclone & Heq).
  exists h', out. split; [done|]. rewrite Heq. f_equal.
  apply forallb_forall. intros idx Hidx%list_elem_of_In.
  apply Hself. by apply elem_of_rowMajor.
Qed.

Lemma clone_then_unequal h (t : TensorOrMemref T) layout bt idx :
  valid h t bt → isDeallocated bt = false →
  getNumElements (view t) false = 0 ∨ getNumElements (view t) true ≠ 0 →
  addresses (sizes (view t)) (getStridesForLayout (sizes (view t)) layout)
            (getNumElements (view t) true) →
  getNumElements (view t) true * sizeofT < 2 ^ 64 →
  Forall2 digit idx (sizes (view t)) →
  compares_equal (peek bt (view t) idx) (peek bt (view t) idx) = false →
  ∃ n, ∀ fuel, (n ≤ fuel)%nat →
    ∃ h' out, clone fuel h t layout = Ok (h', out) ∧
              equal fuel h' out t = Ok false.
Proof.
  intros Hvalid Hd Hguard Haddr Hsize Hidx Hself.
  exists (length (rowMajor (sizes (view t)))). intros fuel Hfuel.
  destruct (clone_then_equal_result h t layout bt Hvalid Hd Hguard Haddr Hsize
              fuel Hfuel) as (h' & out & Hclone & Heq).
  exists h', out. split; [done|]. rewrite Heq. f_equal.
  apply not_true_is_false. intros Hall.
  rewrite forallb_forall in Hall.
  specialize (Hall idx). rewrite Hself in Hall. apply diff_false_true, Hall.
  by apply list_elem_of_In, elem_of_rowMajor.
Qed.

(** A value compares equal to itself as soon as [!=] does not tell it from
    itself, or it is a NaN of a floating-point type. *)
Lemma compares_equal_self (x : T) :
  (is_floating_point && isnan x = false → ne x x = false) →
  compares_equal x x = true.
Proof.
  intros Hirr. unfold compares_equal.
  destruct (is_floating_point && isnan x) eqn:Hnan.
  - apply andb_true_iff in Hnan as [_ Hx]. rewrite Hx.
    by rewrite orb_true_r.
  - by rewrite Hirr.
Qed.

Lemma addresses_default_layout szs :
  addresses szs (getStridesForLayout szs []) (product szs).
Proof. apply getDefaultStrides_addresses. Qed.

End CloneThenEqual.

(** A [std::complex<float>] value compares equal to itself when neither of
    its parts is a NaN. *)
Lemma complex_compares_equal_self (z : complex) :
  float_isnan (re z) = false → float_isnan (im z) = false →
  compares_equal z z = true.
Proof.
  intros Hre Him. unfold compares_equal.
  change (ne z z) with (float_ne (re z) (re z) || float_ne (im z) (im z)).
  unfold float_ne. rewrite Hre, Him, !Z.eqb_refl.
  by destruct (float_is_zero (re z)), (float_is_zero (im z)).
Qed.

(** C3 (amended).  [t.clone(layout) == t] returns true when [t]'s buffer is
    in the heap, not deallocated, and holds every element of [t]'s
    well-formed view; [begin()] judges the emptiness of the view correctly;
    the byte size of the clone fits [size_t]; the strides of [layout] send
    the elements to distinct cells of the new buffer, as those of the
    default layout do; and every element of [t] compares equal to itself:
    [!=] does not tell it from itself, or it is a NaN of a floating-point
    type.  That holds for every value of an integer or floating-point type
    and for every [std::complex] value without a NaN part.  When some
    element of [t] does not compare equal to itself, [t.clone(layout) == t]
    returns false.  And [a == b] returns false as soon as one of the two
    buffers is deallocated. *)
Theorem clone_equal_unless_deallocated :
  (∀ (T : Type) (E : ElementType T) (L : LayoutStrides)
     h (t : TensorOrMemref T) layout bt,
     valid h t bt → isDeallocated bt = false →
     getNumElements (view t) false = 0 ∨ getNumElements (view t) true ≠ 0 →
     addresses (sizes (view t)) (getStridesForLayout (sizes (view t)) layout)
               (getNumElements (view t) true) →
     getNumElements (view t) true * sizeofT < 2 ^ 64 →
     (∀ idx, Forall2 digit idx (sizes (view t)) →
        compares_equal (peek bt (view t) idx) (peek bt (view t) idx) = true) →
     clone_equals_original h t layout) ∧
  (∀ (T : Type) (E : ElementType T) (L : LayoutStrides)
     h (t : TensorOrMemref T) layout bt idx,
     valid h t bt → isDeallocated bt = false →
     getNumElements (view t) false = 0 ∨ getNumElements (view t) true ≠ 0 →
     addresses (sizes (view t)) (getStridesForLayout (sizes (view t)) layout)
               (getNumElements (view t) true) →
     getNumElements (view t) true * sizeofT < 2 ^ 64 →
     Forall2 digit idx (sizes (view t)) →
     compares_equal (peek bt (view t) idx) (peek bt (view t) idx) = false →
     ∃ n, ∀ fuel, (n ≤ fuel)%nat →
       ∃ h' out, clone fuel h t layout = Ok (h', out) ∧
                 equal fuel h' out t = Ok false) ∧
  (∀ (T : Type) (E : ElementType T) (x : T),
     (is_floating_point && isnan x = false → ne x x = false) →
     compares_equal x x = true) ∧
  (∀ z : complex,
     float_isnan (re z) = false → float_isnan (im z) = false →
     compares_equal z z = true) ∧
  (∀ (L : LayoutStrides) szs,
     addresses szs (getStridesForLayout szs []) (product szs)) ∧
  (∀ (T : Type) (E : ElementType T) fuel h (a b : TensorOrMemref T) ba bb,
     h !! buffer a = Some ba → h !! buffer b = Some bb →
     isDeallocated ba = true ∨ isDeallocated bb = true →
     equal fuel h a b = Ok false).
Proof.
  split; [|split; [|split; [|split; [|split]]]].
  - intros T E L. apply clone_then_equal.
  - intros T E L. apply clone_then_unequal.
  - intros T E. apply compares_equal_self.
  - apply complex_compares_equal_self.
  - intros L. apply addresses_default_layout.
  - intros T E. apply equal_deallocated.
Qed.

Lemma valid_matrix : valid matrix_heap matrix matrix_buffer.
Proof.
  split; [done|apply well_formed_matrix_2x3|]. by apply fits_row_major.
Qed.

Lemma valid_complex_one : valid complex_one_heap complex_one complex_one_buffer.
Proof.
  split; [done|apply well_formed_scalar_view|]. by apply fits_row_major.
Qed.

Lemma complex_one_self_equal idx :
  Forall2 digit idx (sizes (view complex_one)) →
  compares_equal (peek complex_one_buffer (view complex_one) idx)
                 (peek complex_one_buffer (view complex_one) idx) = true.
Proof.
  intros Hidx. inversion Hidx as [|i s t l Hi Hrest]; subst.
  inversion Hrest; subst. unfold digit in Hi.
  assert (i = 0) as -> by lia. reflexivity.
Qed.

Lemma clone_equal_unless_deallocated_witness :
  clone_equals_original (L := row_major_layout)
    complex_one_heap complex_one [].
Proof.
  apply (proj1 clone_equal_unless_deallocated) with (bt := complex_one_buffer).
  - apply valid_complex_one.
  - reflexivity.
  - right. vm_compute. discriminate.
  - apply addresses_default_layout.
  - vm_compute. reflexivity.
  - apply complex_one_self_equal.
Defined.

(** The clone of the 2x3 matrix of [int8_t] equals it. *)
Example clone_matrix_equal :
  clone_equals_original (L := row_major_layout) matrix_heap matrix [].
Proof.
  apply (clone_then_equal matrix_heap matrix [] matrix_buffer).
  - apply valid_matrix.
  - reflexivity.
  - right. vm_compute. discriminate.
  - apply addresses_default_layout.
  - vm_compute. reflexivity.
  - intros idx _. apply compares_equal_self, int8_ne_irreflexive.
Qed.

(** Cloning a tensor of one vector without lanes trips the bounds assertion
    of [at]. *)
Lemma clone_no_lanes fuel :
  (1 ≤ fuel)%nat →
  clone (L := row_major_layout) fuel no_lanes_heap no_lanes []
  = AssertionFailed "out of bounds".
Proof. destruct fuel as [|fuel]; [lia|]. intros _. vm_compute. done. Qed.

(** Cloning a view that reaches past its buffer reads outside of the
    storage; on a view with negative sizes [at] asserts. *)
Lemma clone_unbacked fuel :
  (2 ≤ fuel)%nat →
  clone (L := row_major_layout) fuel unbacked_heap unbacked [] = Undefined.
Proof.
  destruct fuel as [|[|fuel]]; [lia|lia|]. intros _. vm_compute. done.
Qed.

Lemma clone_negative_size fuel :
  (1 ≤ fuel)%nat →
  clone (L := row_major_layout) fuel unbacked_heap negative_size []
  = AssertionFailed "out of bounds".
Proof. destruct fuel as [|fuel]; [lia|]. intros _. vm_compute. done. Qed.

Lemma clone_fails {T} {E : ElementType T} (h : heap) (t : TensorOrMemref T)
    (n : nat) :
  (∀ fuel, (n ≤ fuel)%nat →
     ¬ ∃ r, clone (L := row_major_layout) fuel h t [] = Ok r) →
  ¬ clone_equals_original (L := row_major_layout) h t [].
Proof.
  intros Hfail (m & Hm).
  destruct (Hm (n + m)%nat ltac:(lia)) as (h' & out & Hclone & _).
  apply (Hfail (n + m)%nat ltac:(lia)). by eexists.
Qed.

(** C3, as stated, fails for [std::complex<float>]: the clone of a tensor
    holding (NaN, 1.0) differs from it, as NaNs are only paired off for
    floating-point element types.  It also fails on values that nothing
    rules out (a view that reaches past its buffer, a view with negative
    sizes) and on a tensor of one vector without lanes. *)
Lemma clone_counterexample :
  ¬ clone_equals_original (L := row_major_layout) complex_heap complex_nan [] ∧
  ¬ clone_equals_original (L := row_major_layout) unbacked_heap unbacked [] ∧
  ¬ clone_equals_original (L := row_major_layout) unbacked_heap negative_size [] ∧
  ¬ clone_equals_original (L := row_major_layout) no_lanes_heap no_lanes [].
Proof.
  split; [|split; [|split]].
  - intros (n & Hn).
    destruct (Hn (S n) ltac:(lia)) as (h' & out & Hclone & Heq).
    destruct (clone (L := row_major_layout) 1 complex_heap
                complex_nan []) as [[h1 out1]| | |] eqn:Hc1; try done.
    rewrite (clone_mono _ _ _ _ _ _ Hc1) in Hclone by lia.
    injection Hclone as <- <-.
    assert (equal 1 h1 out1 complex_nan = Ok false) as He1.
    { vm_compute in Hc1. injection Hc1 as <- <-. vm_compute. reflexivity. }
    rewrite (equal_mono _ _ _ _ _ _ He1) in Heq by lia. done.
  - apply (clone_fails _ _ 2). intros fuel Hfuel [r Hr].
    by rewrite clone_unbacked in Hr.
  - apply (clone_fails _ _ 1). intros fuel Hfuel [r Hr].
    by rewrite clone_negative_size in Hr.
  - apply (clone_fails _ _ 1). intros fuel Hfuel [r Hr].
    by rewrite clone_no_lanes in Hr.
Qed.

(** ** [rank] *)

(** C7 (amended).  Building a [BufferView] never asserts.  [rank()] is
    [sizes.length - numVectorDims.value_or(0)] in 64-bit arithmetic; it is
    that difference, and not negative, whenever the number of vector
    dimensions lies between 0 and [sizes.length]. *)
Theorem rank_of_constructed_view off szs strs nvd isVec :
  ∃ v, construct off szs strs nvd isVec = Ok v ∧
       rank v = wrap64 (Z.of_nat (length szs) - value_or nvd 0) ∧
       (0 ≤ value_or nvd 0 ≤ Z.of_nat (length szs) →
        Z.of_nat (length szs) < 2 ^ 63 →
        rank v = Z.of_nat (length szs) - value_or nvd 0 ∧ 0 ≤ rank v).
Proof.
  eexists. split; [done|]. split; [done|]. intros Hn Hlen.
  unfold rank. simpl. rewrite wrap64_small by lia. lia.
Qed.

Lemma rank_of_constructed_view_witness :
  ∃ v, construct 0 [2; 3; 4] [12; 4; 1] (Some 1) false = Ok v ∧
       rank v = wrap64 (Z.of_nat (length [2; 3; 4]) - value_or (Some 1) 0) ∧
       (0 ≤ value_or (Some 1) 0 ≤ Z.of_nat (length [2; 3; 4]) →
        Z.of_nat (length [2; 3; 4]) < 2 ^ 63 →
        rank v = Z.of_nat (length [2; 3; 4]) - value_or (Some 1) 0 ∧
        0 ≤ rank v).
Proof. apply (rank_of_constructed_view 0 [2; 3; 4] [12; 4; 1] (Some 1) false). Defined.

(** C7, as stated, fails: a view without dimensions but with one vector
    dimension is built without complaint and has rank -1. *)
Lemma rank_negative_counterexample : ¬ rank_never_negative 0 [] [] (Some 1) false.
Proof. unfold rank_never_negative. simpl. intros [_ Hneg]. vm_compute in Hneg. done. Qed.

(** ** [vectorAt] *)

Lemma from_rank_ok (r : Z) (l : list Z) :
  0 ≤ r ≤ Z.of_nat (length l) → from_rank r l = Ok (drop (Z.to_nat r) l).
Proof.
  intros Hr. unfold from_rank.
  by rewrite (proj2 (Z.leb_le _ _)), (proj2 (Z.leb_le _ _)) by lia.
Qed.

Lemma vectorAt_ok {T} (t : TensorOrMemref T) idx (n : Z) :
  numVectorDims (view t) = Some n →
  0 ≤ n ≤ Z.of_nat (length (sizes (view t))) →
  Z.of_nat (length (sizes (view t))) < 2 ^ 63 →
  length (strides (view t)) = length (sizes (view t)) →
  inBounds (view t) idx = true →
  ∃ r,
    vectorAt t idx = Ok r ∧
    buffer r = buffer t ∧
    sizes (view r)
    = drop (length (sizes (view t)) - Z.to_nat n) (sizes (view t)) ∧
    length (sizes (view r)) = Z.to_nat n ∧
    strides (view r)
    = drop (length (strides (view t)) - Z.to_nat n) (strides (view t)) ∧
    length (strides (view r)) = Z.to_nat n ∧
    offset (view r) = getPhysicalIndex (view t) idx ∧
    offset (view r) = offset (view t) + dot idx (strides (view t)) ∧
    isVector (view r) = true ∧
    numVectorDims (view r) = None.
Proof.
  intros Hnvd Hn Hlen Hstr Hin. unfold vectorAt. rewrite Hin. simpl.
  assert (rank (view t) = Z.of_nat (length (sizes (view t))) - n) as ->.
  { unfold rank. rewrite Hnvd. simpl. apply wrap64_small. lia. }
  rewrite !from_rank_ok by lia. simpl. eexists. split; [done|]. simpl.
  replace (Z.to_nat (Z.of_nat (length (sizes (view t))) - n))
    with (length (sizes (view t)) - Z.to_nat n)%nat by lia.
  rewrite Hstr, !length_drop, Hstr. repeat split; try done; lia.
Qed.

(** C5.  On a tensor of vectors, [vectorAt] of an in-bounds index yields a
    value on the same buffer whose sizes and strides are the trailing
    [numVectorDims] ones, whose offset is the physical index of the selected
    element, and which is marked as a vector without [numVectorDims]; for a
    tensor of shape [2, 3] of vectors of shape [4], [vectorAt({1, 2})] is a
    view of size [4] at the physical index of element (1, 2). *)
Theorem vectorAt_selects_the_vector :
  (∀ (T : Type) (t : TensorOrMemref T) idx (n : Z),
     numVectorDims (view t) = Some n →
     0 ≤ n ≤ Z.of_nat (length (sizes (view t))) →
     Z.of_nat (length (sizes (view t))) < 2 ^ 63 →
     length (strides (view t)) = length (sizes (view t)) →
     inBounds (view t) idx = true →
     ∃ r,
       vectorAt t idx = Ok r ∧
       buffer r = buffer t ∧
       sizes (view r)
       = drop (length (sizes (view t)) - Z.to_nat n) (sizes (view t)) ∧
       length (sizes (view r)) = Z.to_nat n ∧
       strides (view r)
       = drop (length (strides (view t)) - Z.to_nat n) (strides (view t)) ∧
       length (strides (view r)) = Z.to_nat n ∧
       offset (view r) = getPhysicalIndex (view t) idx ∧
       offset (view r) = offset (view t) + dot idx (strides (view t)) ∧
       isVector (view r) = true ∧
       numVectorDims (view r) = None) ∧
  (∀ (T : Type) (l : loc),
     vectorAt (T := T) (mkTensorOrMemref l vectors_2x3x4) [1; 2]
     = Ok (mkTensorOrMemref l (mkBufferView 20 [4] [1] None true)) ∧
     getPhysicalIndex vectors_2x3x4 [1; 2] = 20 ∧
     getPhysicalIndex vectors_2x3x4 [1; 2; 0] = 20).
Proof.
  split.
  - intros T. apply vectorAt_ok.
  - done.
Qed.

Lemma vectorAt_selects_the_vector_witness :
  ∃ r : TensorOrMemref int8_t,
    vectorAt (mkTensorOrMemref 1%positive vectors_2x3x4) [1; 2] = Ok r ∧
    buffer r = 1%positive ∧
    sizes (view r) = [4] ∧ length (sizes (view r)) = 1%nat ∧
    strides (view r) = [1] ∧ length (strides (view r)) = 1%nat ∧
    offset (view r) = getPhysicalIndex vectors_2x3x4 [1; 2] ∧
    offset (view r) = 0 + dot [1; 2] [12; 4; 1] ∧
    isVector (view r) = true ∧
    numVectorDims (view r) = None.
Proof.
  apply (proj1 vectorAt_selects_the_vector int8_t
           (mkTensorOrMemref 1%positive vectors_2x3x4) [1; 2] 1).
  - reflexivity.
  - simpl. lia.
  - simpl. lia.
  - reflexivity.
  - reflexivity.
Defined.

(** ** Assertions of [at] *)



Example at_matrix_1_2 : element matrix_heap matrix [1; 2] = Ok (mkInt8 x06).
Proof. reflexivity. Qed.

Example at_matrix_out_of_bounds :
  element matrix_heap matrix [2; 0] = AssertionFailed "out of bounds".
Proof. reflexivity. Qed.

Example at_matrix_deallocated :
  element (deallocate <$> matrix_heap) matrix [1; 2]
  = AssertionFailed "accessing deallocated buffer".
Proof. reflexivity. Qed.

(** ** [emptyLike] and [empty] *)

Lemma emptyLike_allocates
    {T : Type} {E : ElementType T} {L : LayoutStrides}
    (h : heap) (v : BufferView) (layout : list Z) :
  0 ≤ product (sizes v) * sizeofT < 2 ^ 63 →
  ∃ out b,
    emptyLike (T := T) h v layout = (<[buffer out := b]> h, out) ∧
    h !! buffer out = None ∧
    isDeallocated b = false ∧
    getNumElements v true = product (sizes v) ∧
    (sizes v = [] → getNumElements v true = 1) ∧
    getByteSize b = getNumElements v true * sizeofT ∧
    sizes (view out) = sizes v ∧
    offset (view out) = 0 ∧
    strides (view out) = getStridesForLayout (sizes v) layout ∧
    (layout = [] → strides (view out) = getDefaultStrides (sizes v)) ∧
    ∀ szs, empty (T := T) h szs layout
           = emptyLike h (mkBufferView 0 szs [] None false) layout.
Proof.
  intros Hsize. pose proof sizeofT_pos as Hsz.
  assert (0 ≤ product (sizes v)) as Hp by nia.
  eexists (mkTensorOrMemref (fresh (dom h)) _), _.
  split; [reflexivity|]. simpl.
  split; [apply not_elem_of_dom, is_fresh|].
  split; [done|]. split; [done|].
  split; [by unfold getNumElements, logicalSizes; intros ->|]. split.
  { unfold getByteSize. change (getNumElements v true) with (product (sizes v)).
    rewrite length_storage_allocate by lia. apply wrap64_small. nia. }
  split; [done|]. split; [done|]. split; [done|].
  split; [by intros ->|done].
Qed.

(** C9 (amended).  When the byte count, the product of all sizes times
    [sizeof(T)], is not negative and fits [int64_t],
    [emptyLike(view, layout)] puts a new buffer into the heap, not
    deallocated, of [view.getNumElements(true) * sizeof(T)] bytes, that is
    the product of all sizes times [sizeof(T)]; the view of the result has
    the sizes of [view], offset 0 and the strides of [layout], row-major
    ones for the empty layout.  [empty(sizes, layout)] is [emptyLike] of a
    view of these sizes. *)
Theorem emptyLike_allocates_all_elements
    {T : Type} {E : ElementType T} {L : LayoutStrides}
    (h : heap) (v : BufferView) (layout : list Z) :
  0 ≤ product (sizes v) * sizeofT < 2 ^ 63 →
  emptyLike_holds_all_elements (T := T) h v layout ∧
  ∃ out b,
    emptyLike (T := T) h v layout = (<[buffer out := b]> h, out) ∧
    h !! buffer out = None ∧
    isDeallocated b = false ∧
    getNumElements v true = product (sizes v) ∧
    (sizes v = [] → getNumElements v true = 1) ∧
    getByteSize b = getNumElements v true * sizeofT ∧
    sizes (view out) = sizes v ∧
    offset (view out) = 0 ∧
    strides (view out) = getStridesForLayout (sizes v) layout ∧
    (layout = [] → strides (view out) = getDefaultStrides (sizes v)) ∧
    ∀ szs, empty (T := T) h szs layout
           = emptyLike h (mkBufferView 0 szs [] None false) layout.
Proof.
  intros Hsize. split; [|by apply emptyLike_allocates].
  destruct (emptyLike_allocates (T := T) h v layout Hsize)
    as (out & b & Heq & Hfresh & Hd & Hn & _ & Hbytes & _ & Hoff & Hstr & _).
  exists out, b. rewrite <- Hn. done.
Qed.

Lemma emptyLike_allocates_all_elements_witness :
  emptyLike_holds_all_elements (T := float) (L := row_major_layout)
    ∅ matrix_2x3 [] ∧
  ∃ (out : TensorOrMemref float) b,
    emptyLike (L := row_major_layout) ∅ matrix_2x3 []
    = (<[buffer out := b]> ∅, out) ∧
    (∅ : heap) !! buffer out = None ∧
    isDeallocated b = false ∧
    getNumElements matrix_2x3 true = product (sizes matrix_2x3) ∧
    (sizes matrix_2x3 = [] → getNumElements matrix_2x3 true = 1) ∧
    getByteSize b = getNumElements matrix_2x3 true * sizeofT (T := float) ∧
    sizes (view out) = sizes matrix_2x3 ∧
    offset (view out) = 0 ∧
    strides (view out)
    = getStridesForLayout (L := row_major_layout) (sizes matrix_2x3) [] ∧
    (([] : list Z) = [] →
     strides (view out) = getDefaultStrides (sizes matrix_2x3)) ∧
    ∀ szs, empty (L := row_major_layout) (T := float) ∅ szs []
           = emptyLike (L := row_major_layout) ∅
               (mkBufferView 0 szs [] None false) [].
Proof.
  apply (emptyLike_allocates_all_elements (T := float) (L := row_major_layout)
           ∅ matrix_2x3 []).
  vm_compute. split; [discriminate|reflexivity].
Defined.

(** C9, as stated, fails where the byte count does not fit: for a view of
    2^31 x 2^31 [float] elements the product of the sizes times
    [sizeof(float)] is 2^64, the multiplication in the constructor of
    [Buffer] wraps around, and the new buffer has no byte. *)
Lemma emptyLike_counterexample :
  ¬ emptyLike_holds_all_elements (T := float) (L := row_major_layout)
      ∅ wrapping_view [].
Proof.
  intros (out & b & Heq & _ & _ & Hbytes & _).
  apply (f_equal (λ p : heap * TensorOrMemref float, p.1 !! buffer p.2))
    in Heq.
  unfold emptyLike in Heq. cbn [fst snd buffer] in Heq.
  rewrite !lookup_insert_eq in Heq. injection Heq as <-.
  vm_compute in Hbytes. discriminate.
Qed.

Example emptyLike_wrapping_view :
  getNumElements wrapping_view true = 2 ^ 62 ∧
  getByteSize (allocate (sizeofT (T := float)) (getNumElements wrapping_view true))
  = 0.
Proof. split; reflexivity. Qed.

(** ** Deallocation *)

Lemma exec_keeps_deallocated b op b' :
  exec b op = Ok b' → isDeallocated b = true → isDeallocated b' = true.
Proof.
  destruct op; simpl; unfold Buffer_at;
    try (intros [= <-]; done);
    intros Hex Hd; rewrite Hd in Hex; done.
Qed.

Lemma exec_all_keeps_deallocated ops : ∀ b b',
  exec_all b ops = Ok b' → isDeallocated b = true → isDeallocated b' = true.
Proof.
  induction ops as [|op ops IH]; intros b b'; simpl.
  - by intros [= <-].
  - destruct (exec b op) as [b1| | |] eqn:Hex; simpl; try done.
    intros Hall Hd. apply (IH b1); [done|].
    by apply (exec_keeps_deallocated b op).
Qed.

Lemma exec_only_deallocate_sets_flag b op b' :
  op ≠ OpDeallocate → exec b op = Ok b' → isDeallocated b' = isDeallocated b.
Proof.
  destruct op; simpl; unfold Buffer_at; try done;
    try (intros _ [= <-]; done).
  - destruct (isDeallocated b) eqn:Hd; simpl; [done|].
    destruct (load _ _ _); simpl; try done. by intros _ [= <-].
  - destruct (isDeallocated b) eqn:Hd; simpl; [done|].
    intros _ Hst. apply store_inv in Hst as (_ & _ & _ & ->). done.
Qed.

(** C10.  Once [deallocate()] was called, [deallocated()] is true after
    every further sequence of operations; no operation but [deallocate()]
    changes the flag; a second [deallocate()] changes nothing; and
    [deallocate()] leaves the byte size and the bytes as they are. *)
Theorem deallocate_is_irreversible_and_idempotent (b : Buffer) :
  (∀ ops b', exec_all (deallocate b) ops = Ok b' → deallocated b' = true) ∧
  (∀ op b', op ≠ OpDeallocate → exec b op = Ok b' →
            deallocated b' = deallocated b) ∧
  exec_all (deallocate b) [OpDeallocate; OpGetByteSize; OpDeallocated]
  = Ok (deallocate b) ∧
  deallocated (deallocate b) = true ∧
  deallocate (deallocate b) = deallocate b ∧
  getByteSize (deallocate b) = getByteSize b ∧
  storage (deallocate b) = storage b.
Proof.
  split; [|split; [|done]].
  - intros ops b' Hall. by apply (exec_all_keeps_deallocated ops (deallocate b)).
  - intros op b'. apply exec_only_deallocate_sets_flag.
Qed.

Lemma deallocate_is_irreversible_and_idempotent_witness :
  (∀ ops b', exec_all (deallocate matrix_buffer) ops = Ok b' →
             deallocated b' = true) ∧
  (∀ op b', op ≠ OpDeallocate → exec matrix_buffer op = Ok b' →
            deallocated b' = deallocated matrix_buffer) ∧
  exec_all (deallocate matrix_buffer)
    [OpDeallocate; OpGetByteSize; OpDeallocated]
  = Ok (deallocate matrix_buffer) ∧
  deallocated (deallocate matrix_buffer) = true ∧
  deallocate (deallocate matrix_buffer) = deallocate matrix_buffer ∧
  getByteSize (deallocate matrix_buffer) = getByteSize matrix_buffer ∧
  storage (deallocate matrix_buffer) = storage matrix_buffer.
Proof. apply (deallocate_is_irreversible_and_idempotent matrix_buffer). Defined.

Example poke_then_deallocate :
  exec_all matrix_buffer [OpPoke 1 1 [xff]; OpDeallocate; OpGetByteSize]
  = Ok (mkBuffer [x01; xff; x03; x04; x05; x06] true).
Proof. reflexivity. Qed.

Example poke_after_deallocate :
  exec_all matrix_buffer [OpDeallocate; OpPoke 1 1 [xff]]
  = AssertionFailed "accessing deallocated buffer".
Proof. reflexivity. Qed.

(** ** [subview] *)

Lemma touches_in_bounds_spec (bound o ss sst : Z) :
  touches_in_bounds bound o ss sst = true ↔
  0 ≤ ss ∧ ∀ k, 0 ≤ k < ss → 0 ≤ o + k * sst < bound.
Proof.
  unfold touches_in_bounds.
  rewrite andb_true_iff, Z.leb_le, forallb_forall.
  setoid_rewrite <- list_elem_of_In. setoid_rewrite elem_of_seqZ.
  setoid_rewrite andb_true_iff. setoid_rewrite Z.leb_le.
  setoid_rewrite Z.ltb_lt. split.
  - intros [? Hall]. split; [done|]. intros k Hk. apply Hall. lia.
  - intros [? Hall]. split; [done|]. intros k Hk. apply Hall. lia.
Qed.

Lemma subview_dims_fails szs strs offs subsizes substrides i s o ss sst :
  length subsizes = length offs → length substrides = length offs →
  length strs = length szs →
  szs !! i = Some s → offs !! i = Some o →
  subsizes !! i = Some ss → substrides !! i = Some sst →
  touches_in_bounds s o ss sst = false →
  subview_dims szs strs offs subsizes substrides = None.
Proof.
  revert szs strs offs subsizes substrides.
  induction i as [|i IH];
    intros [|s0 szs] [|st0 strs] [|o0 offs] [|ss0 subsizes] [|sst0 substrides];
    simpl; try done.
  - intros _ _ _ [= ->] [= ->] [= ->] [= ->] ->. done.
  - intros H1 H2 H3 Hs Ho Hss Hsst Ht.
    rewrite (IH szs strs offs subsizes substrides);
      [by destruct (touches_in_bounds s0 o0 ss0 sst0)|lia|lia|lia|done..].
Qed.

Lemma subview_dims_in_bounds szs strs offs subsizes substrides d ns nst :
  length subsizes = length offs → length substrides = length offs →
  length strs = length szs →
  subview_dims szs strs offs subsizes substrides = Some (d, ns, nst) →
  ∀ idx, Forall2 digit idx ns →
    Forall2 digit (parent_index offs substrides idx) szs ∧
    d + dot idx nst = dot (parent_index offs substrides idx) strs.
Proof.
  revert strs offs subsizes substrides d ns nst.
  induction szs as [|s szs IH];
    intros [|st strs] [|o offs] [|ss subsizes] [|sst substrides] d ns nst;
    simpl; try done.
  - intros _ _ _ [= <- <- <-] idx Hidx. split; [done|lia].
  - intros _ _ _ [= <- <- <-] idx Hidx. inversion Hidx; subst. done.
  - intros _ _ _ [= <- <- <-] idx Hidx. split; [done|lia].
  - intros H1 H2 H3.
    destruct (touches_in_bounds s o ss sst) eqn:Ht; [|done].
    destruct (subview_dims szs strs offs subsizes substrides)
      as [[[d' ns'] nst']|] eqn:Hrec; [|done].
    intros [= <- <- <-] idx Hidx.
    inversion Hidx as [|i ? t ? Hi Hrest]; subst.
    destruct (IH strs offs subsizes substrides d' ns' nst') with (idx := t)
      as [Hin Hdot]; [lia|lia|lia|done|done|].
    apply touches_in_bounds_spec in Ht as [_ Ht]. simpl. split.
    + constructor; [|done]. unfold digit in *. by apply Ht.
    + lia.
Qed.

(** C6.  [subview] returns false as soon as, in some dimension, the
    requested size reaches past the current bound once the requested offset
    and stride are accounted for; when it returns true, every index of the
    resulting view stands for an in-bounds index of the original view and
    addresses the same element; on a dimension of size 5, a subview of size
    6 at offset 0 is refused. *)
Theorem subview_refuses_out_of_bounds :
  (∀ v offs subsizes substrides i s o ss sst,
     length subsizes = length offs → length substrides = length offs →
     length (strides v) = length (sizes v) →
     sizes v !! i = Some s → offs !! i = Some o →
     subsizes !! i = Some ss → substrides !! i = Some sst →
     0 < ss →
     s ≤ o + (ss - 1) * sst ∨ (0 ≤ sst ∧ s ≤ (ss - 1) * sst) →
     subview v offs subsizes substrides = (false, v)) ∧
  (∀ v offs subsizes substrides v',
     length subsizes = length offs → length substrides = length offs →
     length (strides v) = length (sizes v) →
     subview v offs subsizes substrides = (true, v') →
     ∀ idx, Forall2 digit idx (sizes v') →
       Forall2 digit (parent_index offs substrides idx) (sizes v) ∧
       inBounds v (parent_index offs substrides idx) = true ∧
       getPhysicalIndex v' idx
       = getPhysicalIndex v (parent_index offs substrides idx)) ∧
  (∀ off st nvd isVec,
     subview (mkBufferView off [5] [st] nvd isVec) [0] [6] [1]
     = (false, mkBufferView off [5] [st] nvd isVec)).
Proof.
  split; [|split].
  - intros v offs subsizes substrides i s o ss sst H1 H2 H3 Hs Ho Hss Hsst Hpos Hover.
    unfold subview.
    rewrite (subview_dims_fails _ _ _ _ _ i s o ss sst); try done.
    destruct (touches_in_bounds s o ss sst) eqn:Ht; [|done].
    apply touches_in_bounds_spec in Ht as [_ Ht].
    pose proof (Ht 0 ltac:(lia)). pose proof (Ht (ss - 1) ltac:(lia)). lia.
  - intros v offs subsizes substrides v' H1 H2 H3. unfold subview.
    destruct (subview_dims _ _ _ _ _) as [[[d ns] nst]|] eqn:Hd; [|done].
    intros [= <-] idx Hidx. simpl in Hidx.
    destruct (subview_dims_in_bounds _ _ _ _ _ _ _ _ H1 H2 H3 Hd idx Hidx)
      as [Hin Hdot].
    split; [done|]. split.
    + by apply Forall2_digit_inBounds in Hin as [_ ?].
    + unfold getPhysicalIndex. simpl. lia.
  - done.
Qed.

Lemma subview_refuses_out_of_bounds_witness :
  subview (mkBufferView 0 [5; 4] [4; 1] None false) [0; 1] [6; 2] [1; 1]
  = (false, mkBufferView 0 [5; 4] [4; 1] None false).
Proof.
  apply (proj1 subview_refuses_out_of_bounds
           (mkBufferView 0 [5; 4] [4; 1] None false) [0; 1] [6; 2] [1; 1]
           0%nat 5 0 6 1); try reflexivity; lia.
Defined.

Example subview_2x2_of_5x4 :
  subview (mkBufferView 0 [5; 4] [4; 1] None false) [1; 2] [2; 2] [2; 1]
  = (true, mkBufferView 6 [2; 2] [8; 1] None false).
Proof. reflexivity. Qed.

(** * Further properties of the header *)

(** ** The index sequence *)

Lemma replicate_not_end (n : nat) : replicate n 0 ≠ [-1].
Proof. by destruct n. Qed.

Lemma begin_eqb_end v incl :
  LogicalIndexView.eqb (LogicalIndexView.begin v incl) (LogicalIndexView.end_ v)
  = (getNumElements v false =? 0).
Proof.
  unfold LogicalIndexView.begin.
  destruct (getNumElements v false =? 0); unfold LogicalIndexView.eqb; simpl.
  - done.
  - apply bool_decide_eq_false_2, replicate_not_end.
Qed.

Lemma run_sentinel fuel v : ∀ it tuples last,
  LogicalIndexView.run fuel v it = Ok (tuples, last) →
  LogicalIndexView.viewIndices last = [-1] ∧ [-1] ∉ tuples.
Proof.
  induction fuel as [|fuel IH]; intros it tuples last; simpl;
    destruct (LogicalIndexView.eqb it (LogicalIndexView.end_ v)) eqn:Heq;
    try done.
  - intros [= <- <-]. apply bool_decide_eq_true in Heq.
    split; [done|]. apply not_elem_of_nil.
  - intros [= <- <-]. apply bool_decide_eq_true in Heq.
    split; [done|]. apply not_elem_of_nil.
  - destruct (LogicalIndexView.next it) as [it'| | |]; simpl; try done.
    destruct (LogicalIndexView.run fuel v it') as [[tuples' last']| | |] eqn:Hr;
      simpl; try done.
    intros [= <- <-]. destruct (IH _ _ _ Hr) as [Hlast Hnot].
    split; [done|]. apply not_elem_of_cons. split; [|done].
    apply bool_decide_eq_false in Heq. intros Hs. by apply Heq.
Qed.

Lemma indices_empty_iff fuel v incl :
  match indices fuel v incl with
  | Ok (tuples, last) =>
      (tuples = [] ↔ getNumElements v false = 0) ∧
      LogicalIndexView.viewIndices last = [-1] ∧ [-1] ∉ tuples
  | _ => getNumElements v false ≠ 0
  end.
Proof.
  destruct (indices fuel v incl) as [[tuples last]| | |] eqn:Hi.
  - split; [|by apply (run_sentinel fuel v _ _ _ Hi)].
    revert Hi. unfold indices. pose proof (begin_eqb_end v incl) as Hb.
    destruct (Z.eqb_spec (getNumElements v false) 0) as [Hn|Hn].
    + destruct fuel; simpl; rewrite Hb; by intros [= <- <-].
    + destruct fuel as [|fuel]; simpl; rewrite Hb; [done|].
      destruct (LogicalIndexView.next _) as [it'| | |]; simpl; try done.
      destruct (LogicalIndexView.run fuel v it') as [[tuples' last']| | |];
        simpl; try done.
      by intros [= <- <-].
  - intros Hn. unfold indices in Hi.
    rewrite (begin_end_of_empty_tensor v incl Hn), run_end in Hi. done.
  - intros Hn. unfold indices in Hi.
    rewrite (begin_end_of_empty_tensor v incl Hn), run_end in Hi. done.
  - intros Hn. unfold indices in Hi.
    rewrite (begin_end_of_empty_tensor v incl Hn), run_end in Hi. done.
Qed.

(** X1.  Whatever the view and the flag, [begin()] equals [end()] exactly
    when [getNumElements()], taken over the tensor dimensions, is 0.  A loop
    over [indices(includeVectorDims)] that runs to its end sees no tuple
    exactly in that case, never sees the sentinel as a tuple, and stops at
    the sentinel; a loop that does not run to its end is over a view with
    [getNumElements() != 0]. *)
Theorem indices_empty_iff_no_tensor_element (fuel : nat) (v : BufferView)
    (incl : bool) :
  LogicalIndexView.eqb (LogicalIndexView.begin v incl) (LogicalIndexView.end_ v)
  = (getNumElements v false =? 0) ∧
  match indices fuel v incl with
  | Ok (tuples, last) =>
      (tuples = [] ↔ getNumElements v false = 0) ∧
      LogicalIndexView.viewIndices last = [-1] ∧ [-1] ∉ tuples
  | _ => getNumElements v false ≠ 0
  end.
Proof. split; [apply begin_eqb_end|apply indices_empty_iff]. Qed.

Example position_matrix_1_2 : position [1; 2] [2; 3] = 5.
Proof. reflexivity. Qed.

Lemma carry_position a rds :
  Forall (λ s, s < 2 ^ 63) rds →
  Forall2 digit a rds →
  (LogicalIndexView.carry a rds = Ok None ∧
   position_rev a rds = product rds - 1) ∨
  (∃ a', LogicalIndexView.carry a rds = Ok (Some a') ∧
         Forall2 digit a' rds ∧
         position_rev a' rds = position_rev a rds + 1).
Proof.
  intros Hb Hd. induction Hd as [|i s a rds Hi Hd IH]; simpl.
  - left. done.
  - inversion Hb as [|? ? Hs Hb']; subst. unfold digit in Hi.
    rewrite wrap64_small by lia.
    destruct (Z.ltb_spec (i + 1) s) as [Hlt|Hge].
    + right. eexists. split; [done|]. split; [|simpl; lia].
      constructor; [unfold digit; lia|done].
    + assert (i = s - 1) as -> by lia.
      destruct (IH Hb') as [[-> Hp]|(a' & -> & Hd' & Hp)]; simpl.
      * left. split; [done|]. rewrite Hp. lia.
      * right. eexists. split; [done|]. split.
        -- constructor; [unfold digit; lia|done].
        -- simpl. rewrite Hp. lia.
Qed.

Lemma Forall2_reverse_2 {A B} (P : A → B → Prop) l k :
  Forall2 P l k → Forall2 P (reverse l) (reverse k).
Proof.
  induction 1; [done|]. rewrite !reverse_cons. apply Forall2_app; [done|].
  by constructor.
Qed.

Lemma next_position v incl t :
  well_formed v →
  Forall2 digit t (logicalSizes v incl) →
  ∃ it',
    LogicalIndexView.next (LogicalIndexView.mkIterator v t incl) = Ok it' ∧
    LogicalIndexView.view it' = v ∧
    LogicalIndexView.includeVectorDims it' = incl ∧
    ((LogicalIndexView.viewIndices it' = [-1] ∧
      position t (logicalSizes v incl) = product (logicalSizes v incl) - 1) ∨
     (Forall2 digit (LogicalIndexView.viewIndices it') (logicalSizes v incl) ∧
      position (LogicalIndexView.viewIndices it') (logicalSizes v incl)
      = position t (logicalSizes v incl) + 1)).
Proof.
  intros Hwf Ht. unfold LogicalIndexView.next. simpl.
  rewrite sizeIt_well_formed by done. simpl.
  destruct (carry_position (reverse t) (reverse (logicalSizes v incl)))
    as [[-> Hp]|(a' & -> & Hd & Hp)].
  - apply Forall_reverse. eapply Forall_impl; [by apply logicalSizes_bounded|].
    simpl. lia.
  - by apply Forall2_reverse_2.
  - simpl. eexists. repeat split. left. split; [done|].
    unfold position. rewrite Hp, product_reverse. done.
  - simpl. eexists. repeat split. right. simpl. unfold position.
    rewrite reverse_involutive. split; [|done].
    rewrite <- (reverse_involutive (logicalSizes v incl)).
    by apply Forall2_reverse_2.
Qed.

(** X2.  On a well-formed view, [operator++] applied to an in-bounds tuple
    returns, keeps the view and the flag, and either moves to an in-bounds
    tuple whose row-major position is one more, or, from the tuple at the
    last position, to the sentinel. *)
Theorem next_advances_position (v : BufferView) (incl : bool) (t : list Z) :
  well_formed v →
  Forall2 digit t (logicalSizes v incl) →
  ∃ it',
    LogicalIndexView.next (LogicalIndexView.mkIterator v t incl) = Ok it' ∧
    LogicalIndexView.view it' = v ∧
    LogicalIndexView.includeVectorDims it' = incl ∧
    ((LogicalIndexView.viewIndices it' = [-1] ∧
      position t (logicalSizes v incl) = product (logicalSizes v incl) - 1) ∨
     (Forall2 digit (LogicalIndexView.viewIndices it') (logicalSizes v incl) ∧
      position (LogicalIndexView.viewIndices it') (logicalSizes v incl)
      = position t (logicalSizes v incl) + 1)).
Proof. apply next_position. Qed.

Lemma next_advances_position_witness :
  ∃ it',
    LogicalIndexView.next (LogicalIndexView.mkIterator matrix_2x3 [0; 2] false)
    = Ok it' ∧
    LogicalIndexView.view it' = matrix_2x3 ∧
    LogicalIndexView.includeVectorDims it' = false ∧
    ((LogicalIndexView.viewIndices it' = [-1] ∧
      position [0; 2] (logicalSizes matrix_2x3 false)
      = product (logicalSizes matrix_2x3 false) - 1) ∨
     (Forall2 digit (LogicalIndexView.viewIndices it')
                    (logicalSizes matrix_2x3 false) ∧
      position (LogicalIndexView.viewIndices it') (logicalSizes matrix_2x3 false)
      = position [0; 2] (logicalSizes matrix_2x3 false) + 1)).
Proof.
  apply (next_advances_position matrix_2x3 false [0; 2]).
  - apply well_formed_matrix_2x3.
  - repeat constructor; simpl; lia.
Defined.

Example next_matrix_0_2 :
  LogicalIndexView.next (LogicalIndexView.mkIterator matrix_2x3 [0; 2] false)
  = Ok (LogicalIndexView.mkIterator matrix_2x3 [1; 0] false).
Proof. reflexivity. Qed.

Lemma next_flag v t :
  value_or (numVectorDims v) 0 = 0 →
  ∀ incl,
    LogicalIndexView.next (LogicalIndexView.mkIterator v t incl)
    = it ← LogicalIndexView.next (LogicalIndexView.mkIterator v t true);
      Ok (LogicalIndexView.mkIterator v (LogicalIndexView.viewIndices it) incl).
Proof.
  intros Hnvd incl. unfold LogicalIndexView.next. simpl.
  assert (LogicalIndexView.sizeIt v incl = Ok (reverse (sizes v))) as ->.
  { destruct incl; [done|].
    unfold LogicalIndexView.sizeIt, LogicalIndexView.advance.
    rewrite Hnvd. simpl.
    by rewrite (proj2 (Z.leb_le 0 _) (Nat2Z.is_nonneg _)). }
  simpl. by destruct (LogicalIndexView.carry _ _).
Qed.

Lemma run_flag v :
  value_or (numVectorDims v) 0 = 0 →
  ∀ fuel t incl,
    tuples_of (LogicalIndexView.run fuel v (LogicalIndexView.mkIterator v t incl))
    = tuples_of (LogicalIndexView.run fuel v (LogicalIndexView.mkIterator v t true)).
Proof.
  intros Hnvd. induction fuel as [|fuel IH]; intros t incl; simpl.
  - unfold LogicalIndexView.eqb. simpl. by destruct (bool_decide _).
  - unfold LogicalIndexView.eqb. simpl.
    destruct (bool_decide _); [done|].
    rewrite (next_flag v t Hnvd incl).
    destruct (LogicalIndexView.next (LogicalIndexView.mkIterator v t true))
      as [it'| | |] eqn:Hn; simpl; try done.
    assert (it' = LogicalIndexView.mkIterator v
                    (LogicalIndexView.viewIndices it') true) as Hit.
    { unfold LogicalIndexView.next in Hn. simpl in Hn.
      destruct (LogicalIndexView.carry _ _); simpl in Hn; try done.
      by injection Hn as <-. }
    specialize (IH (LogicalIndexView.viewIndices it') incl).
    rewrite <- Hit in IH. unfold tuples_of in *.
    destruct (LogicalIndexView.run fuel v
                (LogicalIndexView.mkIterator v
                   (LogicalIndexView.viewIndices it') incl))
      as [[tu la]| | |];
    destruct (LogicalIndexView.run fuel v it') as [[tu' la']| | |];
      simpl in *; try done.
    by injection IH as ->.
Qed.

Lemma indices_flag fuel v :
  value_or (numVectorDims v) 0 = 0 →
  tuples_of (indices fuel v false) = tuples_of (indices fuel v true).
Proof.
  intros Hnvd. unfold indices, LogicalIndexView.begin.
  destruct (getNumElements v false =? 0).
  - by destruct fuel.
  - rewrite Hnvd, Z.add_0_r. apply (run_flag v Hnvd).
Qed.

(** X3.  On a view without vector dimensions ([numVectorDims] unset or 0),
    [indices(false)] and [indices(true)] behave alike: the same tuples, or
    the same failure. *)
Theorem indices_flag_irrelevant_without_vector_dimensions (fuel : nat)
    (v : BufferView) :
  value_or (numVectorDims v) 0 = 0 →
  tuples_of (indices fuel v false) = tuples_of (indices fuel v true).
Proof. apply indices_flag. Qed.

Lemma indices_flag_irrelevant_without_vector_dimensions_witness :
  tuples_of (indices 6 matrix_2x3 false) = tuples_of (indices 6 matrix_2x3 true).
Proof.
  apply (indices_flag_irrelevant_without_vector_dimensions 6 matrix_2x3).
  reflexivity.
Defined.

(** ** Writing and reading through [at] *)

Lemma load_store_frame b ptr bytes b' q n :
  store b ptr bytes = Ok b' →
  0 ≤ n →
  q + n ≤ ptr ∨ ptr + Z.of_nat (length bytes) ≤ q →
  load b' q n = load b q n.
Proof.
  intros Hst Hn Hdis. destruct (Z.le_gt_cases 0 q) as [Hq|Hq].
  - by apply (load_store_other b ptr bytes b').
  - unfold load. by rewrite !(proj2 (Z.leb_gt 0 q) Hq).
Qed.

Section ReadWrite.
Context {T : Type} {E : ElementType T}.

Lemma set_element_inv h (t : TensorOrMemref T) idx x h' :
  set_element h t idx x = Ok h' →
  ∃ b b',
    h !! buffer t = Some b ∧ isDeallocated b = false ∧
    inBounds (view t) idx = true ∧
    store b (getPhysicalIndex (view t) idx * sizeofT) (encode x) = Ok b' ∧
    h' = <[buffer t := b']> h.
Proof.
  unfold set_element, at_, write, deref, Buffer_at.
  destruct (inBounds (view t) idx); simpl; [|done].
  destruct (h !! buffer t) as [b|]; simpl; [|done].
  destruct (isDeallocated b) eqn:Hd; simpl; [done|].
  destruct (store b _ _) as [b'| | |] eqn:Hst; simpl; try done.
  intros [= <-]. by exists b, b'.
Qed.

Lemma set_element_same h (t u : TensorOrMemref T) idx idx' x h' :
  set_element h t idx x = Ok h' →
  buffer u = buffer t →
  inBounds (view u) idx' = true →
  getPhysicalIndex (view u) idx' = getPhysicalIndex (view t) idx →
  element h' t idx = Ok x ∧ element h' u idx' = Ok x.
Proof.
  intros Hset Hbuf Hin Hphys.
  destruct (set_element_inv _ _ _ _ _ Hset)
    as (b & b' & Hb & Hd & Hint & Hst & ->).
  pose proof (store_inv _ _ _ _ Hst) as (_ & _ & _ & Hd').
  pose proof (load_store_same _ _ _ _ Hst) as Hl. rewrite length_encode in Hl.
  assert (∀ w : TensorOrMemref T, ∀ i,
            buffer w = buffer t → inBounds (view w) i = true →
            getPhysicalIndex (view w) i = getPhysicalIndex (view t) idx →
            element (<[buffer t := b']> h) w i = Ok x) as Hall.
  { intros w i Hw Hi Hp. unfold element, at_, read, deref, Buffer_at.
    rewrite Hi, Hw, lookup_insert_eq. simpl. rewrite Hd', Hd. simpl.
    rewrite Hp, Hl. simpl. by rewrite decode_encode. }
  split; by apply Hall.
Qed.

Lemma set_element_other h (t u : TensorOrMemref T) idx idx' x h' :
  set_element h t idx x = Ok h' →
  buffer u ≠ buffer t ∨
  getPhysicalIndex (view u) idx' ≠ getPhysicalIndex (view t) idx →
  element h' u idx' = element h u idx'.
Proof.
  intros Hset Hother.
  destruct (set_element_inv _ _ _ _ _ Hset)
    as (b & b' & Hb & Hd & Hint & Hst & ->).
  pose proof (store_inv _ _ _ _ Hst) as (_ & _ & _ & Hd').
  pose proof sizeofT_pos as Hsz.
  unfold element, at_, read, deref, Buffer_at.
  destruct (inBounds (view u) idx'); simpl; [|done].
  destruct (decide (buffer u = buffer t)) as [Hbuf|Hbuf].
  - destruct Hother as [?|Hphys]; [done|].
    rewrite Hbuf, lookup_insert_eq, Hb. simpl. rewrite Hd', Hd. simpl.
    rewrite (load_store_frame b _ _ b' _ _ Hst); [done|lia|].
    rewrite length_encode. nia.
  - by rewrite !lookup_insert_ne.
Qed.

End ReadWrite.

(** X4.  After [t.at(idx) = x] returned, [t.at(idx)] reads [x], and so does
    [u.at(idx')] for every value [u] on the same buffer whose in-bounds
    index [idx'] has the same physical index. *)
Theorem write_then_read {T : Type} {E : ElementType T} (h : heap)
    (t u : TensorOrMemref T) (idx idx' : list Z) (x : T) (h' : heap) :
  set_element h t idx x = Ok h' →
  buffer u = buffer t →
  inBounds (view u) idx' = true →
  getPhysicalIndex (view u) idx' = getPhysicalIndex (view t) idx →
  element h' t idx = Ok x ∧ element h' u idx' = Ok x.
Proof. apply set_element_same. Qed.

Lemma write_then_read_witness :
  element (<[1%positive := mkBuffer [x01; x02; x03; x04; x05; xff] false]>
             matrix_heap) matrix [1; 2]
  = Ok (mkInt8 xff) ∧
  element (<[1%positive := mkBuffer [x01; x02; x03; x04; x05; xff] false]>
             matrix_heap)
          (mkTensorOrMemref 1%positive (mkBufferView 5 [1] [1] None false)) [0]
  = Ok (mkInt8 xff).
Proof.
  apply (write_then_read matrix_heap matrix
           (mkTensorOrMemref 1%positive (mkBufferView 5 [1] [1] None false))
           [1; 2] [0] (mkInt8 xff)); reflexivity.
Defined.

(** X5.  After [t.at(idx) = x] returned, every element of a value on
    another buffer, and every element of a value on the same buffer at
    another physical index, reads as it did before, failures included. *)
Theorem write_leaves_other_elements {T : Type} {E : ElementType T} (h : heap)
    (t u : TensorOrMemref T) (idx idx' : list Z) (x : T) (h' : heap) :
  set_element h t idx x = Ok h' →
  buffer u ≠ buffer t ∨
  getPhysicalIndex (view u) idx' ≠ getPhysicalIndex (view t) idx →
  element h' u idx' = element h u idx'.
Proof. apply set_element_other. Qed.

Lemma write_leaves_other_elements_witness :
  element (<[1%positive := mkBuffer [x01; x02; x03; x04; x05; xff] false]>
             matrix_heap) matrix [0; 1]
  = element matrix_heap matrix [0; 1].
Proof.
  apply (write_leaves_other_elements matrix_heap matrix matrix
           [1; 2] [0; 1] (mkInt8 xff)).
  - reflexivity.
  - right. vm_compute. discriminate.
Defined.

(** ** [vectorAt] is a view, not a copy *)

Lemma inBounds_at_app i j szs :
  (length i ≤ length szs)%nat →
  inBounds_at (i ++ j) szs
  = inBounds_at i szs && inBounds_at j (drop (length i) szs).
Proof.
  revert szs. induction i as [|x i IH]; intros [|s szs] Hlen; simpl in *;
    try done; try lia.
  rewrite IH by lia. by rewrite andb_assoc.
Qed.

Lemma dot_app i j strs :
  dot (i ++ j) strs = dot i strs + dot j (drop (length i) strs).
Proof.
  revert strs. induction i as [|x i IH]; intros [|s strs]; simpl; try done.
  - by destruct (i ++ j), j.
  - rewrite IH. lia.
Qed.

Section VectorAt.
Context {T : Type} {E : ElementType T}.

Lemma vectorAt_buffer (t s : TensorOrMemref T) i :
  vectorAt t i = Ok s → buffer s = buffer t.
Proof.
  unfold vectorAt. destruct (assert _ _); simpl; try done.
  destruct (from_rank _ (strides _)); simpl; try done.
  destruct (from_rank _ (sizes _)); simpl; try done.
  by intros [= <-].
Qed.

Lemma vectorAt_at h (t : TensorOrMemref T) i j :
  well_formed (view t) →
  length (strides (view t)) = length (sizes (view t)) →
  Z.of_nat (length i) = rank (view t) →
  (s ← vectorAt t i; at_ h s j) = at_ h t (i ++ j).
Proof.
  intros Hwf Hstr Hlen. pose proof (rank_well_formed _ Hwf) as Hrank.
  destruct Hwf as [_ Hl Hnvd].
  unfold vectorAt, at_, inBounds, getPhysicalIndex.
  rewrite !from_rank_ok by lia.
  rewrite inBounds_at_app by lia. rewrite dot_app.
  replace (Z.to_nat (rank (view t))) with (length i) by lia.
  destruct (inBounds_at i (sizes (view t))); simpl; [|done].
  by rewrite Z.add_assoc.
Qed.

Lemma vectorAt_element h (t : TensorOrMemref T) i j :
  well_formed (view t) →
  length (strides (view t)) = length (sizes (view t)) →
  Z.of_nat (length i) = rank (view t) →
  (s ← vectorAt t i; element h s j) = element h t (i ++ j) ∧
  ∀ x, (s ← vectorAt t i; set_element h s j x) = set_element h t (i ++ j) x.
Proof.
  intros Hwf Hstr Hlen. pose proof (vectorAt_at h t i j Hwf Hstr Hlen) as Hat.
  unfold element, set_element. rewrite <- Hat.
  destruct (vectorAt t i) as [s| | |] eqn:Hv; simpl; try done.
  apply vectorAt_buffer in Hv. unfold read, write. by rewrite Hv.
Qed.

End VectorAt.

Lemma well_formed_vectors_2x3x4 : well_formed vectors_2x3x4.
Proof. split; simpl; [|lia|lia]. repeat (constructor; [lia|]). constructor. Qed.

(** X6.  On a well-formed view with as many strides as sizes, and for a
    tuple [i] of [rank()] indices, reading [vectorAt(i).at(j)] is reading
    [at(i ++ j)], and assigning to the one is assigning to the other, with
    the same result or the same failure: the vector shares the buffer. *)
Theorem vectorAt_shares_the_elements {T : Type} {E : ElementType T} (h : heap)
    (t : TensorOrMemref T) (i j : list Z) :
  well_formed (view t) →
  length (strides (view t)) = length (sizes (view t)) →
  Z.of_nat (length i) = rank (view t) →
  (s ← vectorAt t i; element h s j) = element h t (i ++ j) ∧
  ∀ x, (s ← vectorAt t i; set_element h s j x) = set_element h t (i ++ j) x.
Proof. apply vectorAt_element. Qed.

Lemma vectorAt_shares_the_elements_witness :
  (s ← vectorAt vectors [1; 2]; element vectors_heap s [3])
  = element vectors_heap vectors ([1; 2] ++ [3]) ∧
  ∀ x, (s ← vectorAt vectors [1; 2]; set_element vectors_heap s [3] x)
       = set_element vectors_heap vectors ([1; 2] ++ [3]) x.
Proof.
  apply (vectorAt_shares_the_elements vectors_heap vectors [1; 2] [3]).
  - apply well_formed_vectors_2x3x4.
  - reflexivity.
  - reflexivity.
Defined.

Example vectorAt_then_write :
  (s ← vectorAt vectors [1; 2];
   h' ← set_element vectors_heap s [3] (mkInt8 xff);
   element h' vectors [1; 2; 3])
  = Ok (mkInt8 xff).
Proof. reflexivity. Qed.

(** ** [clone] is a deep copy *)

Lemma zip_for_invariant {S} (P : S → Prop)
    (body : list Z → list Z → S → outcome S) :
  (∀ a b s s', P s → body a b s = Ok s' → P s') →
  ∀ fuel v1 it1 v2 it2 s s',
    P s → zip_for fuel v1 it1 v2 it2 body s = Ok s' → P s'.
Proof.
  intros Hbody. induction fuel as [|fuel IH]; intros v1 it1 v2 it2 s s' HP; simpl.
  - destruct (_ || _); [|done]. by intros [= <-].
  - destruct (_ || _); [by intros [= <-]|].
    destruct (body _ _ s) as [s1| | |] eqn:Hb; simpl; try done.
    destruct (LogicalIndexView.next it1) as [it1'| | |]; simpl; try done.
    destruct (LogicalIndexView.next it2) as [it2'| | |]; simpl; try done.
    apply IH. by eapply Hbody.
Qed.

Section DeepCopy.
Context {T : Type} {E : ElementType T} {L : LayoutStrides}.

Lemma assign_only_fills h n (t out : TensorOrMemref T) src dst h1 h2 :
  only_fills h (buffer out) n h1 →
  assign t out src dst h1 = Ok h2 →
  only_fills h (buffer out) n h2.
Proof.
  intros [Hframe (b & Hb & Hd & Hlen)]. unfold assign.
  destruct (at_ h1 t src) as [p| | |]; simpl; try done.
  destruct (at_ h1 out dst) as [q| | |]; simpl; try done.
  destruct (read h1 t p) as [x| | |]; simpl; try done.
  unfold write, deref. rewrite Hb. simpl.
  destruct (store b q (encode x)) as [b'| | |] eqn:Hst; simpl; try done.
  intros [= <-]. apply store_inv in Hst as (_ & _ & Hlen' & Hd'). split.
  - intros l' Hl'. rewrite lookup_insert_ne by done. by apply Hframe.
  - exists b'. rewrite lookup_insert_eq. repeat split; congruence.
Qed.

Lemma clone_inv fuel h (t : TensorOrMemref T) layout h' out :
  clone fuel h t layout = Ok (h', out) →
  out = (emptyLike h (view t) layout).2 ∧
  only_fills h (buffer out)
    (length (storage (allocate sizeofT (getNumElements (view t) true)))) h'.
Proof.
  unfold clone. simpl.
  destruct (zip_for _ _ _ _ _ _ _) as [h1| | |] eqn:Hz; simpl; try done.
  intros [= <- <-]. split; [done|]. simpl.
  eapply (zip_for_invariant (only_fills h (fresh (dom h)) _)); [| |exact Hz].
  - intros a b s s' HP Hb. by eapply (assign_only_fills h _ t) in Hb.
  - split.
    + intros l' Hl'. by rewrite lookup_insert_ne.
    + eexists. rewrite lookup_insert_eq. done.
Qed.

Lemma element_heap h h' (u : TensorOrMemref T) idx :
  h' !! buffer u = h !! buffer u → element h' u idx = element h u idx.
Proof. intros Hu. unfold element, at_, read, deref. by rewrite Hu. Qed.

Lemma clone_frame fuel h (t : TensorOrMemref T) layout h' out :
  clone fuel h t layout = Ok (h', out) →
  h !! buffer out = None ∧
  (∀ l, l ≠ buffer out → h' !! l = h !! l) ∧
  (∃ b, h' !! buffer out = Some b ∧ isDeallocated b = false ∧
        length (storage b)
        = length (storage (allocate sizeofT (getNumElements (view t) true)))) ∧
  view out = mkBufferView 0 (sizes (view t))
               (getStridesForLayout (sizes (view t)) layout)
               (numVectorDims (view t)) (isVector (view t)) ∧
  (∀ (u : TensorOrMemref T) idx,
     is_Some (h !! buffer u) → element h' u idx = element h u idx) ∧
  (∀ idx x h'' (u : TensorOrMemref T) idx',
     set_element h' out idx x = Ok h'' →
     is_Some (h !! buffer u) → element h'' u idx' = element h u idx').
Proof.
  intros Hc. apply clone_inv in Hc as [-> [Hframe Hb]]. simpl in *.
  assert (h !! fresh (dom h) = None) as Hfresh
    by apply not_elem_of_dom, is_fresh.
  assert (∀ (u : TensorOrMemref T) idx,
            is_Some (h !! buffer u) → element h' u idx = element h u idx)
    as Hold.
  { intros u idx [b Hu]. apply element_heap, Hframe. congruence. }
  repeat split; try done.
  intros idx x h'' u idx' Hset Hu. rewrite <- (Hold u idx' Hu).
  apply (set_element_other _ _ _ _ _ _ _ Hset). left. simpl.
  destruct Hu as [b Hu]. congruence.
Qed.

Lemma clone_elements fuel h (t : TensorOrMemref T) layout bt :
  valid h t bt → isDeallocated bt = false →
  getNumElements (view t) false = 0 ∨ getNumElements (view t) true ≠ 0 →
  addresses (sizes (view t)) (getStridesForLayout (sizes (view t)) layout)
            (getNumElements (view t) true) →
  getNumElements (view t) true * sizeofT < 2 ^ 64 →
  (length (rowMajor (sizes (view t))) ≤ fuel)%nat →
  ∃ h' out,
    clone fuel h t layout = Ok (h', out) ∧
    ∀ idx, Forall2 digit idx (sizes (view t)) →
      ∃ x, element h t idx = Ok x ∧ element h' t idx = Ok x ∧
           element h' out idx = Ok x.
Proof.
  intros Hv Hd Hg Ha Hsz Hfuel.
  destruct (clone_ok fuel h t layout bt Hv Hd Hg Ha Hsz Hfuel)
    as (h' & out & b' & Hc & Ht & Hout & Hd' & Hshape & Hfits & Hpeek).
  exists h', out. split; [done|]. intros idx Hidx.
  exists (peek bt (view t) idx). destruct Hv as [Hb Hwf Hf].
  split; [by apply element_ok|]. split; [by apply element_ok|].
  rewrite <- Hpeek by done. apply element_ok; try done.
  destruct Hshape as [<- _]. done.
Qed.

Lemma begin_not_end v incl :
  getNumElements v false ≠ 0 →
  LogicalIndexView.eqb (LogicalIndexView.begin v incl) (LogicalIndexView.end_ v)
  = false.
Proof. intros Hn. rewrite begin_eqb_end. by apply Z.eqb_neq. Qed.

Lemma assign_deallocated h1 (t out : TensorOrMemref T) src dst bt :
  h1 !! buffer t = Some bt → isDeallocated bt = true →
  assign t out src dst h1
  = AssertionFailed (if inBounds (view t) src
                     then "accessing deallocated buffer"
                     else "out of bounds").
Proof.
  intros Hb Hd. unfold assign, at_, deref, Buffer_at.
  destruct (inBounds (view t) src); simpl; [|done].
  rewrite Hb. simpl. by rewrite Hd.
Qed.

Lemma begin_in_bounds v :
  well_formed v → getNumElements v true ≠ 0 →
  inBounds v (LogicalIndexView.viewIndices (LogicalIndexView.begin v true))
  = true.
Proof.
  intros Hwf Hn. unfold LogicalIndexView.begin.
  destruct (getNumElements v false =? 0) eqn:Hz.
  - apply Z.eqb_eq in Hz. by apply (product_logicalSizes_zero v true) in Hz.
  - simpl. rewrite (length_logicalSizes v true) by done. simpl.
    assert (Forall (λ s, 0 < s) (sizes v)) as Hpos.
    { apply product_positive; [|done].
      eapply Forall_impl; [apply Hwf|]. simpl. lia. }
    unfold inBounds. induction Hpos as [|s l Hs _ IH]; simpl; [done|].
    rewrite IH. by rewrite (proj2 (Z.ltb_lt 0 s)).
Qed.

Lemma clone_deallocated h (t : TensorOrMemref T) layout bt :
  h !! buffer t = Some bt → isDeallocated bt = true →
  (getNumElements (view t) false = 0 →
   ∀ fuel, clone fuel h t layout = Ok (emptyLike h (view t) layout)) ∧
  (getNumElements (view t) false ≠ 0 →
   ∀ fuel, is_assertion (clone (S fuel) h t layout) = true) ∧
  (well_formed (view t) → getNumElements (view t) true ≠ 0 →
   ∀ fuel, clone (S fuel) h t layout
           = AssertionFailed "accessing deallocated buffer").
Proof.
  intros Hb Hd.
  assert (h !! fresh (dom h) = None) as Hfresh
    by apply not_elem_of_dom, is_fresh.
  assert (fresh (dom h) ≠ buffer t) as Hne by congruence.
  assert (getNumElements (view t) false ≠ 0 → ∀ fuel,
            clone (S fuel) h t layout
            = AssertionFailed
                (if inBounds (view t)
                      (LogicalIndexView.viewIndices
                         (LogicalIndexView.begin (view t) true))
                 then "accessing deallocated buffer"
                 else "out of bounds")) as Hfail.
  { intros Hn fuel. unfold clone. simpl.
    rewrite (begin_not_end (view t) true Hn).
    rewrite (begin_not_end
               (mkBufferView 0 (sizes (view t))
                  (getStridesForLayout (sizes (view t)) layout)
                  (numVectorDims (view t)) (isVector (view t))) true Hn).
    simpl.
    rewrite (assign_deallocated _ t _ _ _ bt);
      [|by rewrite lookup_insert_ne|done].
    done. }
  split; [|split].
  - intros Hn fuel. unfold clone. simpl.
    rewrite (begin_end_of_empty_tensor (view t) true Hn).
    by destruct fuel.
  - intros Hn fuel. by rewrite Hfail.
  - intros Hwf Hn fuel. rewrite Hfail.
    + by rewrite begin_in_bounds.
    + intros Hz. by apply (product_logicalSizes_zero (view t) true) in Hz.
Qed.

End DeepCopy.

(** X7.  When [clone] returns, it has put one new, live buffer into the
    heap, of the size [emptyLike] allocates, and has changed no other
    buffer: every value that was there reads as before, and still does
    after an assignment to an element of the clone.  The view of the clone
    has offset 0, the strides of [layout] and the sizes, [numVectorDims]
    and [isVector] of the original. *)
Theorem clone_is_a_deep_copy {T : Type} {E : ElementType T}
    {L : LayoutStrides} (fuel : nat) (h : heap) (t : TensorOrMemref T)
    (layout : list Z) (h' : heap) (out : TensorOrMemref T) :
  clone fuel h t layout = Ok (h', out) →
  h !! buffer out = None ∧
  (∀ l, l ≠ buffer out → h' !! l = h !! l) ∧
  (∃ b, h' !! buffer out = Some b ∧ isDeallocated b = false ∧
        length (storage b)
        = length (storage (allocate sizeofT (getNumElements (view t) true)))) ∧
  view out = mkBufferView 0 (sizes (view t))
               (getStridesForLayout (sizes (view t)) layout)
               (numVectorDims (view t)) (isVector (view t)) ∧
  (∀ (u : TensorOrMemref T) idx,
     is_Some (h !! buffer u) → element h' u idx = element h u idx) ∧
  (∀ idx x h'' (u : TensorOrMemref T) idx',
     set_element h' out idx x = Ok h'' →
     is_Some (h !! buffer u) → element h'' u idx' = element h u idx').
Proof. apply clone_frame. Qed.

Lemma clone_is_a_deep_copy_witness :
  matrix_heap !! buffer matrix_clone.2 = None ∧
  (∀ l, l ≠ buffer matrix_clone.2 → matrix_clone.1 !! l = matrix_heap !! l) ∧
  (∃ b, matrix_clone.1 !! buffer matrix_clone.2 = Some b ∧
        isDeallocated b = false ∧
        length (storage b)
        = length (storage (allocate (sizeofT (T := int8_t))
                             (getNumElements (view matrix) true)))) ∧
  view matrix_clone.2
  = mkBufferView 0 (sizes (view matrix))
      (getStridesForLayout (L := row_major_layout) (sizes (view matrix)) [])
      (numVectorDims (view matrix)) (isVector (view matrix)) ∧
  (∀ (u : TensorOrMemref int8_t) idx,
     is_Some (matrix_heap !! buffer u) →
     element matrix_clone.1 u idx = element matrix_heap u idx) ∧
  (∀ idx x h'' (u : TensorOrMemref int8_t) idx',
     set_element matrix_clone.1 matrix_clone.2 idx x = Ok h'' →
     is_Some (matrix_heap !! buffer u) →
     element h'' u idx' = element matrix_heap u idx').
Proof.
  apply (clone_is_a_deep_copy (L := row_major_layout) 6 matrix_heap matrix []).
  vm_compute. reflexivity.
Defined.

(** X8.  For every element type, [std::complex] included: when [t]'s
    buffer is live and holds every element of [t]'s well-formed view,
    [begin()] judges the emptiness of the view correctly, the byte size of
    the clone fits [size_t] and the strides of [layout] send the elements
    to distinct cells, [clone] returns and every element of the clone reads
    the value the element of [t] at the same index reads, before and after. *)
Theorem clone_copies_every_element {T : Type} {E : ElementType T}
    {L : LayoutStrides} (fuel : nat) (h : heap) (t : TensorOrMemref T)
    (layout : list Z) (bt : Buffer) :
  valid h t bt → isDeallocated bt = false →
  getNumElements (view t) false = 0 ∨ getNumElements (view t) true ≠ 0 →
  addresses (sizes (view t)) (getStridesForLayout (sizes (view t)) layout)
            (getNumElements (view t) true) →
  getNumElements (view t) true * sizeofT < 2 ^ 64 →
  (length (rowMajor (sizes (view t))) ≤ fuel)%nat →
  ∃ h' out,
    clone fuel h t layout = Ok (h', out) ∧
    ∀ idx, Forall2 digit idx (sizes (view t)) →
      ∃ x, element h t idx = Ok x ∧ element h' t idx = Ok x ∧
           element h' out idx = Ok x.
Proof. apply clone_elements. Qed.

Lemma valid_complex_nan :
  valid complex_heap complex_nan
    (mkBuffer (encode (mkComplex float_nan float_one)) false).
Proof.
  split; [done|apply well_formed_scalar_view|]. by apply fits_row_major.
Qed.

Lemma clone_copies_every_element_witness :
  ∃ h' out,
    clone (L := row_major_layout) 1 complex_heap complex_nan [] = Ok (h', out) ∧
    ∀ idx, Forall2 digit idx (sizes (view complex_nan)) →
      ∃ x, element complex_heap complex_nan idx = Ok x ∧
           element h' complex_nan idx = Ok x ∧
           element h' out idx = Ok x.
Proof.
  apply (clone_copies_every_element (L := row_major_layout) 1 complex_heap
           complex_nan [] (mkBuffer (encode (mkComplex float_nan float_one)) false)).
  - apply valid_complex_nan.
  - reflexivity.
  - right. vm_compute. discriminate.
  - apply addresses_default_layout.
  - vm_compute. reflexivity.
  - vm_compute. lia.
Defined.

(** X9.  [clone] of a value whose buffer is deallocated: when
    [getNumElements()] is 0 the loop body never runs and [clone] returns
    the empty value [emptyLike] made; otherwise the first [at] trips an
    assertion, and on a well-formed view with [getNumElements(true) != 0]
    that is "accessing deallocated buffer". *)
Theorem clone_of_deallocated {T : Type} {E : ElementType T}
    {L : LayoutStrides} (h : heap) (t : TensorOrMemref T) (layout : list Z)
    (bt : Buffer) :
  h !! buffer t = Some bt → isDeallocated bt = true →
  (getNumElements (view t) false = 0 →
   ∀ fuel, clone fuel h t layout = Ok (emptyLike h (view t) layout)) ∧
  (getNumElements (view t) false ≠ 0 →
   ∀ fuel, is_assertion (clone (S fuel) h t layout) = true) ∧
  (well_formed (view t) → getNumElements (view t) true ≠ 0 →
   ∀ fuel, clone (S fuel) h t layout
           = AssertionFailed "accessing deallocated buffer").
Proof. apply clone_deallocated. Qed.

Lemma clone_of_deallocated_witness :
  (getNumElements (view matrix) false = 0 →
   ∀ fuel, clone (L := row_major_layout) fuel (deallocate <$> matrix_heap)
             matrix []
           = Ok (emptyLike (L := row_major_layout) (deallocate <$> matrix_heap)
                   (view matrix) [])) ∧
  (getNumElements (view matrix) false ≠ 0 →
   ∀ fuel, is_assertion
             (clone (L := row_major_layout) (S fuel)
                (deallocate <$> matrix_heap) matrix []) = true) ∧
  (well_formed (view matrix) → getNumElements (view matrix) true ≠ 0 →
   ∀ fuel, clone (L := row_major_layout) (S fuel)
             (deallocate <$> matrix_heap) matrix []
           = AssertionFailed "accessing deallocated buffer").
Proof.
  apply (clone_of_deallocated (L := row_major_layout)
           (deallocate <$> matrix_heap) matrix [] (deallocate matrix_buffer));
    reflexivity.
Defined.

(** ** Symmetry of [operator==] *)

Lemma forallb_pointwise {A} (f g : A → bool) l :
  (∀ x, f x = g x) → forallb f l = forallb g l.
Proof.
  intros Hfg. induction l as [|x l IH]; simpl; [done|]. by rewrite Hfg, IH.
Qed.

Section Symmetry.
Context {T : Type} {E : ElementType T}.

Lemma compares_equal_sym (x y : T) :
  (∀ x y : T, ne x y = ne y x) → compares_equal x y = compares_equal y x.
Proof.
  intros Hne. unfold compares_equal. rewrite (Hne x y).
  by destruct is_floating_point, (isnan x), (isnan y), (ne y x).
Qed.

Lemma equal_sym h (a b : TensorOrMemref T) ba bb :
  valid h a ba → valid h b bb →
  getNumElements (view a) false = 0 ∨ getNumElements (view a) true ≠ 0 →
  getNumElements (view b) false = 0 ∨ getNumElements (view b) true ≠ 0 →
  (∀ x y : T, ne x y = ne y x) →
  ∃ n, ∀ fuel, (n ≤ fuel)%nat →
    ∃ r, equal fuel h a b = Ok r ∧ equal fuel h b a = Ok r.
Proof.
  intros [Ha Hwa Hfa] [Hb Hwb Hfb] Hga Hgb Hne.
  exists (length (rowMajor (sizes (view a)))
          `max` length (rowMajor (sizes (view b))))%nat.
  intros fuel Hfuel.
  rewrite (equal_eval fuel h a b ba bb) by (try done; lia).
  rewrite (equal_eval fuel h b a bb ba) by (try done; lia).
  eexists. split; [done|]. f_equal.
  destruct (decide (sizes (view b) = sizes (view a))) as [Hs|Hs].
  - rewrite Hs. rewrite !bool_decide_eq_true_2 by done.
    rewrite (bool_decide_ext (numVectorDims (view a) = numVectorDims (view b))
                             (numVectorDims (view b) = numVectorDims (view a)))
      by done.
    rewrite (forallb_pointwise _ (λ idx, compares_equal (peek ba (view a) idx)
                                           (peek bb (view b) idx)))
      by (intros idx; by apply compares_equal_sym).
    by destruct (isDeallocated ba), (isDeallocated bb).
  - rewrite (bool_decide_eq_false_2 (sizes (view b) = sizes (view a))) by done.
    rewrite (bool_decide_eq_false_2 (sizes (view a) = sizes (view b))) by done.
    by destruct (isDeallocated ba), (isDeallocated bb).
Qed.

End Symmetry.

Lemma byte_eqb_sym (x y : byte) : Byte.eqb x y = Byte.eqb y x.
Proof.
  destruct (Byte.eqb x y) eqn:Hxy, (Byte.eqb y x) eqn:Hyx; try done.
  - apply Byte.byte_dec_bl in Hxy as ->.
    by rewrite (Byte.byte_dec_lb eq_refl) in Hyx.
  - apply Byte.byte_dec_bl in Hyx as ->.
    by rewrite (Byte.byte_dec_lb eq_refl) in Hxy.
Qed.

Lemma int8_ne_sym (x y : int8_t) : ne x y = ne y x.
Proof. simpl. by rewrite byte_eqb_sym. Qed.

Lemma float_ne_sym (x y : float) : ne x y = ne y x.
Proof.
  simpl. unfold float_ne. rewrite (Z.eqb_sym (float_bits x)).
  by destruct (float_isnan x), (float_isnan y), (float_is_zero x),
    (float_is_zero y), (float_bits y =? float_bits x).
Qed.

(** X10.  For two values whose buffers hold every element of their
    well-formed views, with [begin()] judging the emptiness of both views
    correctly, and for an element type whose [!=] is symmetric, [a == b]
    and [b == a] return, and return the same. *)
Theorem equal_is_symmetric {T : Type} {E : ElementType T} (h : heap)
    (a b : TensorOrMemref T) (ba bb : Buffer) :
  valid h a ba → valid h b bb →
  getNumElements (view a) false = 0 ∨ getNumElements (view a) true ≠ 0 →
  getNumElements (view b) false = 0 ∨ getNumElements (view b) true ≠ 0 →
  (∀ x y : T, ne x y = ne y x) →
  ∃ n, ∀ fuel, (n ≤ fuel)%nat →
    ∃ r, equal fuel h a b = Ok r ∧ equal fuel h b a = Ok r.
Proof. apply equal_sym. Qed.

Lemma equal_is_symmetric_witness :
  ∃ n, ∀ fuel, (n ≤ fuel)%nat →
    ∃ r, equal fuel float_heap (float_at 1%positive) (float_at 3%positive) = Ok r ∧
         equal fuel float_heap (float_at 3%positive) (float_at 1%positive) = Ok r.
Proof.
  apply (equal_is_symmetric float_heap (float_at 1%positive)
           (float_at 3%positive) (mkBuffer (encode float_nan) false)
           (mkBuffer (encode float_one) false)).
  - apply valid_float_at; reflexivity.
  - apply valid_float_at; reflexivity.
  - right. vm_compute. discriminate.
  - right. vm_compute. discriminate.
  - apply float_ne_sym.
Defined.

(** ** [empty] *)

Section Empty.
Context {T : Type} {E : ElementType T} {L : LayoutStrides}.

Lemma peek_zero (v : BufferView) idx (n : Z) :
  0 ≤ getPhysicalIndex v idx →
  (getPhysicalIndex v idx + 1) * sizeofT ≤ n →
  peek (mkBuffer (replicate (Z.to_nat n) x00) false) v idx
  = decode (replicate (Z.to_nat sizeofT) x00).
Proof.
  intros Hp Hn. pose proof sizeofT_pos as Hsz. unfold peek. simpl.
  rewrite drop_replicate, take_replicate. do 2 f_equal. nia.
Qed.

Lemma empty_zero h szs :
  Forall (λ s, 0 ≤ s) szs →
  product szs * sizeofT < 2 ^ 64 →
  ∃ h' out b,
    empty (T := T) h szs [] = (h', out) ∧
    h !! buffer out = None ∧
    h' = <[buffer out := b]> h ∧
    ∀ idx, Forall2 digit idx szs →
      element h' out idx = Ok (decode (replicate (Z.to_nat sizeofT) x00)).
Proof.
  intros Hnn Hsize. pose proof sizeofT_pos as Hsz.
  pose proof (product_nonneg _ Hnn) as Hp.
  eexists _, (mkTensorOrMemref (fresh (dom h)) _), _.
  split; [reflexivity|]. simpl.
  split; [apply not_elem_of_dom, is_fresh|]. split; [done|].
  intros idx Hidx.
  assert (fits (allocate sizeofT (product szs))
               (mkBufferView 0 szs (getDefaultStrides szs) None false) sizeofT)
    as Hfits.
  { apply fits_row_major; [done|done|done|]. cbn [sizes].
    rewrite length_storage_allocate by lia. lia. }
  rewrite (element_ok _ _ (allocate sizeofT (product szs)));
    [|by rewrite lookup_insert_eq|done|done|done].
  destruct (Hfits idx Hidx) as [H0 H1].
  rewrite length_storage_allocate in H1 by lia.
  unfold allocate, Buffer_new, to_size_t. f_equal.
  rewrite (Z.mod_small (product szs)) by nia.
  rewrite Z.mod_small by nia. by apply peek_zero.
Qed.

End Empty.

(** X11.  [empty(sizes)], for non-negative sizes whose byte count fits
    [size_t], puts a new buffer into the heap and returns a value all of
    whose elements can be read, each as the value of [sizeof(T)] zero
    bytes. *)
Theorem empty_is_zero_filled {T : Type} {E : ElementType T}
    {L : LayoutStrides} (h : heap) (szs : list Z) :
  Forall (λ s, 0 ≤ s) szs →
  product szs * sizeofT < 2 ^ 64 →
  ∃ h' out b,
    empty (T := T) h szs [] = (h', out) ∧
    h !! buffer out = None ∧
    h' = <[buffer out := b]> h ∧
    ∀ idx, Forall2 digit idx szs →
      element h' out idx = Ok (decode (replicate (Z.to_nat sizeofT) x00)).
Proof. apply empty_zero. Qed.

Lemma empty_is_zero_filled_witness :
  ∃ h' (out : TensorOrMemref float) b,
    empty (L := row_major_layout) matrix_heap [2; 3] [] = (h', out) ∧
    matrix_heap !! buffer out = None ∧
    h' = <[buffer out := b]> matrix_heap ∧
    ∀ idx, Forall2 digit idx [2; 3] →
      element h' out idx
      = Ok (decode (replicate (Z.to_nat (sizeofT (T := float))) x00)).
Proof.
  apply (empty_is_zero_filled (T := float) (L := row_major_layout)
           matrix_heap [2; 3]).
  - repeat (constructor; [lia|]). constructor.
  - vm_compute. reflexivity.
Defined.

(** ** The storage of a buffer *)

Lemma exec_storage b op b' :
  exec b op = Ok b' →
  length (storage b') = length (storage b) ∧
  (is_poke op = false → storage b' = storage b).
Proof.
  destruct op; simpl; unfold Buffer_at;
    try (intros [= <-]; done).
  - destruct (isDeallocated b); simpl; [done|].
    destruct (load _ _ _); simpl; try done. by intros [= <-].
  - destruct (isDeallocated b); simpl; [done|].
    intros Hst. apply store_inv in Hst as (_ & _ & -> & _). done.
Qed.

Lemma exec_all_storage ops : ∀ b b',
  exec_all b ops = Ok b' →
  length (storage b') = length (storage b) ∧
  (forallb (λ op, negb (is_poke op)) ops = true → storage b' = storage b).
Proof.
  induction ops as [|op ops IH]; intros b b'; simpl.
  - by intros [= <-].
  - destruct (exec b op) as [b1| | |] eqn:Hex; simpl; try done.
    intros Hall. destruct (IH _ _ Hall) as [Hlen Hst].
    destruct (exec_storage _ _ _ Hex) as [Hlen1 Hst1]. split; [congruence|].
    intros [Hp Hops]%andb_true_iff. rewrite Hst by done. apply Hst1.
    by destruct (is_poke op).
Qed.

(** X12.  No sequence of operations on a [Buffer] changes its byte size,
    and only writes through the pointer [at] returns change its bytes:
    reading, [getByteSize], [deallocate] and [deallocated] leave them as
    they are. *)
Theorem buffer_keeps_its_size (b : Buffer) (ops : list BufferOp)
    (b' : Buffer) :
  exec_all b ops = Ok b' →
  getByteSize b' = getByteSize b ∧
  length (storage b') = length (storage b) ∧
  (forallb (λ op, negb (is_poke op)) ops = true → storage b' = storage b).
Proof.
  intros Hall. destruct (exec_all_storage _ _ _ Hall) as [Hlen Hst].
  unfold getByteSize. by rewrite Hlen.
Qed.

Lemma buffer_keeps_its_size_witness :
  getByteSize (mkBuffer [x01; xff; x03; x04; x05; x06] true)
  = getByteSize matrix_buffer ∧
  length (storage (mkBuffer [x01; xff; x03; x04; x05; x06] true))
  = length (storage matrix_buffer) ∧
  (forallb (λ op, negb (is_poke op))
     [OpPeek 0 1 1; OpPoke 1 1 [xff]; OpDeallocate; OpGetByteSize] = true →
   storage (mkBuffer [x01; xff; x03; x04; x05; x06] true)
   = storage matrix_buffer).
Proof.
  apply (buffer_keeps_its_size matrix_buffer
           [OpPeek 0 1 1; OpPoke 1 1 [xff]; OpDeallocate; OpGetByteSize]).
  reflexivity.
Defined.

(** ** Tensor dimensions first, lanes inside *)

Lemma odometer_app ra rb :
  odometer (ra ++ rb) = tb ← odometer rb; (λ ta, ta ++ tb) <$> odometer ra.
Proof.
  induction ra as [|s ra IH]; csimpl.
  - induction (odometer rb) as [|t l IHl]; [done|]. csimpl. by rewrite <- IHl.
  - rewrite IH. clear IH. induction (odometer rb) as [|tb l IHl]; [done|].
    csimpl. rewrite bind_app, IHl. f_equal. clear IHl.
    induction (odometer ra) as [|ta k IHk]; [done|].
    csimpl. rewrite fmap_app, <- IHk. f_equal.
    rewrite <- list_fmap_compose. done.
Qed.

Lemma rowMajor_app d1 d2 :
  rowMajor (d1 ++ d2) = i ← rowMajor d1; (λ j, i ++ j) <$> rowMajor d2.
Proof.
  unfold rowMajor. rewrite reverse_app, odometer_app.
  induction (odometer (reverse d1)) as [|tb l IH]; [done|].
  csimpl. rewrite fmap_app, IH. f_equal.
  rewrite <- !list_fmap_compose. apply list_fmap_ext. intros _ ta _. simpl.
  by rewrite reverse_app.
Qed.

Section Lanes.
Context {T : Type}.

Lemma for_each_vector_ok fuel (t : TensorOrMemref T) inner outer :
  Forall (λ i, lanes fuel t i = Ok ((λ j, i ++ j) <$> inner)) outer →
  for_each_vector fuel t outer = Ok (i ← outer; (λ j, i ++ j) <$> inner).
Proof.
  induction 1 as [|i outer Hi _ IH]; csimpl; [done|]. by rewrite Hi, IH.
Qed.

Lemma lanes_ok fuel (t : TensorOrMemref T) i :
  well_formed (view t) →
  length (strides (view t)) = length (sizes (view t)) →
  Forall2 digit i (take (Z.to_nat (rank (view t))) (sizes (view t))) →
  (length (rowMajor (drop (Z.to_nat (rank (view t))) (sizes (view t))))
   ≤ fuel)%nat →
  lanes fuel t i
  = Ok ((λ j, i ++ j)
          <$> rowMajor (drop (Z.to_nat (rank (view t))) (sizes (view t)))).
Proof.
  intros Hwf Hstr Hi Hfuel. pose proof (rank_well_formed _ Hwf) as Hrank.
  pose proof Hwf as [Hsz Hl Hnvd].
  unfold lanes, vectorAt.
  apply Forall2_digit_inBounds in Hi as [Hlen Hin].
  rewrite length_take in Hlen. rewrite inBounds_at_take in Hin by lia.
  unfold inBounds. rewrite Hin. simpl.
  rewrite !from_rank_ok by lia. simpl.
  set (vs := mkBufferView _ _ _ None true).
  assert (well_formed vs) as Hwfs.
  { split; simpl; [by apply Forall_drop|rewrite length_drop; lia|lia]. }
  assert (logicalSizes vs false = sizes vs) as Hls.
  { unfold logicalSizes. rewrite (rank_well_formed _ Hwfs). simpl.
    rewrite Z.sub_0_r, Nat2Z.id. apply take_ge. done. }
  destruct (indices_rowMajor vs false Hwfs) as (last & _ & Hrun).
  { destruct (decide (getNumElements vs false = 0)); [by left|by right]. }
  rewrite Hls in Hrun. rewrite Hrun by done. done.
Qed.

Lemma indices_by_vector (t : TensorOrMemref T) :
  well_formed (view t) →
  length (strides (view t)) = length (sizes (view t)) →
  getNumElements (view t) false = 0 ∨ getNumElements (view t) true ≠ 0 →
  ∃ n, ∀ fuel, (n ≤ fuel)%nat →
    ∃ all,
      tuples_of (indices fuel (view t) true) = Ok all ∧
      (outer ← tuples_of (indices fuel (view t) false);
       for_each_vector fuel t outer) = Ok all.
Proof.
  intros Hwf Hstr Hguard.
  set (r := Z.to_nat (rank (view t))).
  destruct (indices_rowMajor (view t) true Hwf Hguard) as (l1 & _ & Hall).
  destruct (indices_rowMajor (view t) false Hwf) as (l2 & _ & Houter).
  { destruct (decide (getNumElements (view t) false = 0)); [by left|by right]. }
  exists (length (rowMajor (sizes (view t)))
          + length (rowMajor (take r (sizes (view t))))
          + length (rowMajor (drop r (sizes (view t)))))%nat.
  intros fuel Hfuel. eexists.
  rewrite Hall by (simpl; lia). rewrite Houter by (simpl; fold r; lia).
  simpl. split; [done|].
  rewrite (for_each_vector_ok fuel t (rowMajor (drop r (sizes (view t))))).
  - by rewrite <- rowMajor_app, take_drop.
  - apply Forall_forall. intros i Hi. apply elem_of_rowMajor in Hi.
    apply lanes_ok; try done. fold r. lia.
Qed.

End Lanes.

(** X13.  On a well-formed view with as many strides as sizes, for which
    [begin()] judges emptiness correctly, a loop over [indices()] that
    takes [vectorAt(i)] and loops over the indices [j] of that vector sees
    the tuples [i ++ j] that one loop over [indices(true)] sees, in the
    same order; every [vectorAt(i)] in it returns. *)
Theorem indices_vector_by_vector {T : Type} (t : TensorOrMemref T) :
  well_formed (view t) →
  length (strides (view t)) = length (sizes (view t)) →
  getNumElements (view t) false = 0 ∨ getNumElements (view t) true ≠ 0 →
  ∃ n, ∀ fuel, (n ≤ fuel)%nat →
    ∃ all,
      tuples_of (indices fuel (view t) true) = Ok all ∧
      (outer ← tuples_of (indices fuel (view t) false);
       for_each_vector fuel t outer) = Ok all.
Proof. apply indices_by_vector. Qed.

Lemma indices_vector_by_vector_witness :
  ∃ n, ∀ fuel, (n ≤ fuel)%nat →
    ∃ all,
      tuples_of (indices fuel (view vectors) true) = Ok all ∧
      (outer ← tuples_of (indices fuel (view vectors) false);
       for_each_vector fuel vectors outer) = Ok all.
Proof.
  apply (indices_vector_by_vector vectors).
  - apply well_formed_vectors_2x3x4.
  - reflexivity.
  - right. vm_compute. discriminate.
Defined.

Example for_each_vector_2x1x2 :
  (outer ← tuples_of (indices 4 (mkBufferView 0 [2; 1; 2] [2; 2; 1] (Some 1) false)
                        false);
   for_each_vector 4
     (mkTensorOrMemref (T := int8_t) 1%positive
        (mkBufferView 0 [2; 1; 2] [2; 2; 1] (Some 1) false)) outer)
  = Ok [[0; 0; 0]; [0; 0; 1]; [1; 0; 0]; [1; 0; 1]].
Proof. reflexivity. Qed.

(** ** Deallocation and the values that share a buffer *)

Section Aliases.
Context {T : Type} {E : ElementType T}.

Lemma element_deallocated h (u : TensorOrMemref T) idx b :
  h !! buffer u = Some b → isDeallocated b = true →
  element h u idx
  = AssertionFailed (if inBounds (view u) idx
                     then "accessing deallocated buffer"
                     else "out of bounds") ∧
  ∀ x, set_element h u idx x
       = AssertionFailed (if inBounds (view u) idx
                          then "accessing deallocated buffer"
                          else "out of bounds").
Proof.
  intros Hb Hd. unfold element, set_element, at_, deref, Buffer_at.
  destruct (inBounds (view u) idx); simpl; [|done].
  rewrite Hb. simpl. by rewrite Hd.
Qed.

Lemma deallocate_buffer_aliases h (t : TensorOrMemref T) h' :
  deallocate_buffer h t = Ok h' →
  (∀ (u : TensorOrMemref T) idx,
     buffer u = buffer t →
     element h' u idx
     = AssertionFailed (if inBounds (view u) idx
                        then "accessing deallocated buffer"
                        else "out of bounds") ∧
     ∀ x, set_element h' u idx x
          = AssertionFailed (if inBounds (view u) idx
                             then "accessing deallocated buffer"
                             else "out of bounds")) ∧
  (∀ i s j, vectorAt t i = Ok s → is_assertion (element h' s j) = true) ∧
  (∀ (u w : TensorOrMemref T) fuel,
     buffer u = buffer t → is_Some (h' !! buffer w) →
     equal fuel h' u w = Ok false ∧ equal fuel h' w u = Ok false) ∧
  (∀ (u : TensorOrMemref T) idx,
     buffer u ≠ buffer t → element h' u idx = element h u idx).
Proof.
  unfold deallocate_buffer, deref.
  destruct (h !! buffer t) as [b|] eqn:Hb; simpl; [|done].
  intros [= <-].
  assert (∀ u : TensorOrMemref T, buffer u = buffer t →
            <[buffer t := deallocate b]> h !! buffer u = Some (deallocate b))
    as Hu.
  { intros u ->. by rewrite lookup_insert_eq. }
  split; [|split; [|split]].
  - intros u idx Hbuf.
    by apply (element_deallocated _ _ _ (deallocate b)); [apply Hu|].
  - intros i s j Hv. apply vectorAt_buffer in Hv.
    destruct (element_deallocated _ s j (deallocate b) (Hu s Hv) eq_refl)
      as [-> _].
    done.
  - intros u w fuel Hbuf [bw Hw]. split.
    + apply (equal_deallocated fuel _ u w (deallocate b) bw);
        [by apply Hu|done|].
      by left.
    + apply (equal_deallocated fuel _ w u bw (deallocate b));
        [done|by apply Hu|].
      by right.
  - intros u idx Hne. apply element_heap. by rewrite lookup_insert_ne.
Qed.

End Aliases.

(** X14.  After [t.buffer->deallocate()], every value on the same buffer
    traps: reading or assigning an element trips the assertion "accessing
    deallocated buffer" for an index in bounds and "out of bounds"
    otherwise, also through a vector that [vectorAt] returned, and [==]
    with any value returns false, on either side.  Values on other
    buffers read as before. *)
Theorem deallocation_reaches_every_alias {T : Type} {E : ElementType T}
    (h : heap) (t : TensorOrMemref T) (h' : heap) :
  deallocate_buffer h t = Ok h' →
  (∀ (u : TensorOrMemref T) idx,
     buffer u = buffer t →
     element h' u idx
     = AssertionFailed (if inBounds (view u) idx
                        then "accessing deallocated buffer"
                        else "out of bounds") ∧
     ∀ x, set_element h' u idx x
          = AssertionFailed (if inBounds (view u) idx
                             then "accessing deallocated buffer"
                             else "out of bounds")) ∧
  (∀ i s j, vectorAt t i = Ok s → is_assertion (element h' s j) = true) ∧
  (∀ (u w : TensorOrMemref T) fuel,
     buffer u = buffer t → is_Some (h' !! buffer w) →
     equal fuel h' u w = Ok false ∧ equal fuel h' w u = Ok false) ∧
  (∀ (u : TensorOrMemref T) idx,
     buffer u ≠ buffer t → element h' u idx = element h u idx).
Proof. apply deallocate_buffer_aliases. Qed.

Lemma deallocation_reaches_every_alias_witness :
  (∀ (u : TensorOrMemref int8_t) idx,
     buffer u = buffer vectors →
     element (<[1%positive := deallocate (mkBuffer (replicate 24 x07) false)]>
                vectors_heap) u idx
     = AssertionFailed (if inBounds (view u) idx
                        then "accessing deallocated buffer"
                        else "out of bounds") ∧
     ∀ x, set_element
            (<[1%positive := deallocate (mkBuffer (replicate 24 x07) false)]>
               vectors_heap) u idx x
          = AssertionFailed (if inBounds (view u) idx
                             then "accessing deallocated buffer"
                             else "out of bounds")) ∧
  (∀ i s j, vectorAt vectors i = Ok s →
     is_assertion
       (element (<[1%positive := deallocate (mkBuffer (replicate 24 x07) false)]>
                   vectors_heap) s j) = true) ∧
  (∀ (u w : TensorOrMemref int8_t) fuel,
     buffer u = buffer vectors →
     is_Some ((<[1%positive := deallocate (mkBuffer (replicate 24 x07) false)]>
                 vectors_heap) !! buffer w) →
     equal fuel (<[1%positive := deallocate (mkBuffer (replicate 24 x07) false)]>
                   vectors_heap) u w = Ok false ∧
     equal fuel (<[1%positive := deallocate (mkBuffer (replicate 24 x07) false)]>
                   vectors_heap) w u = Ok false) ∧
  (∀ (u : TensorOrMemref int8_t) idx,
     buffer u ≠ buffer vectors →
     element (<[1%positive := deallocate (mkBuffer (replicate 24 x07) false)]>
                vectors_heap) u idx
     = element vectors_heap u idx).
Proof.
  apply (deallocation_reaches_every_alias vectors_heap vectors).
  reflexivity.
Defined.
